(** * Voice-Recognition: the streaming recognition pipeline

    A shallow embedding of [src/voice_recognition.py]
    (class [AdvancedVoiceRecognition]) and the properties of its
    post-processor, its per-utterance aggregation, its history store and
    its recognition loop.

    Conventions of the embedding:
    - a Python [str] is a [string]; every [ascii] stands for the code
      point of the same number, so the model covers the texts whose code
      points lie in 0..255 (the Vosk English models emit lowercase ASCII);
    - a Python [dict] used as a table ([symbol_mappings]) is a [gmap];
      the dicts decoded from the engine's JSON are records whose optional
      keys are [option] fields;
    - a Python list that is shared by reference lives in a heap
      ([gmap loc _]) and is named by its location;
    - exceptions are the [Raise] results of a small state-and-error monad. *)

From Stdlib Require Import Ascii NArith ZArith QArith PrimFloat Uint63 FloatOps
  SpecFloat.
From stdpp Require Import gmap strings list fin_maps.

Local Open Scope N_scope.

(** ** Python string primitives used by [process_text] *)

Module PyStr.

(** [str.isspace] on one code point below 256: TAB..CR, FS..US, SPACE,
    NEL (0x85) and NBSP (0xA0). These are the separators of [str.split()]
    called without argument. *)
Definition isspace (c : ascii) : bool :=
  let n := N_of_ascii c in
  ((9 <=? n) && (n <=? 13)) || ((28 <=? n) && (n <=? 32))
  || (n =? 133) || (n =? 160).

(** [str.lower] on one code point below 256: A..Z and the Latin-1 capitals
    0xC0..0xDE (the multiplication sign 0xD7 apart) move up by 32. *)
Definition lower_char (c : ascii) : ascii :=
  let n := N_of_ascii c in
  if ((65 <=? n) && (n <=? 90))
     || ((192 <=? n) && (n <=? 222) && negb (n =? 215))
  then ascii_of_N (n + 32) else c.

Fixpoint lower (s : string) : string :=
  match s with
  | EmptyString => EmptyString
  | String c s' => String (lower_char c) (lower s')
  end.

(** [text.split()]: scan left to right, [cur] is the token read so far;
    a separator closes a non-empty token, runs of separators and leading or
    trailing separators yield no empty token. *)
Fixpoint split_from (cur : string) (s : string) : list string :=
  match s with
  | EmptyString => if decide (cur = EmptyString) then [] else [cur]
  | String c s' =>
      if isspace c then
        if decide (cur = EmptyString) then split_from EmptyString s'
        else cur :: split_from EmptyString s'
      else split_from (cur +:+ String c EmptyString) s'
  end.

Definition split (s : string) : list string := split_from EmptyString s.

(** [sep.join(words)] *)
Fixpoint join (sep : string) (words : list string) : string :=
  match words with
  | [] => EmptyString
  | [w] => w
  | w :: ws => w +:+ sep +:+ join sep ws
  end.

(** No code point of [s] is a separator. *)
Fixpoint nospace (s : string) : bool :=
  match s with
  | EmptyString => true
  | String c s' => negb (isspace c) && nospace s'
  end.

(** Every code point of [s] is a separator ([s] may be empty). *)
Fixpoint allspace (s : string) : bool :=
  match s with
  | EmptyString => true
  | String c s' => isspace c && allspace s'
  end.

(** A token: a non-empty string without separator. *)
Definition is_token (s : string) : Prop := s ≠ EmptyString ∧ nospace s = true.

End PyStr.

(** ** PostProcessor: [symbol_mappings] and [process_text] *)

(** [self.symbol_mappings], the dict built in [__init__]. *)
Definition symbol_mappings : gmap string string :=
  <["dash" := "-"]> (<["hyphen" := "-"]> (<["minus" := "-"]> ∅)).

(** One turn of the [for word in words] loop:
    [self.symbol_mappings.get(word.lower(), word)]. *)
Definition process_word (word : string) : string :=
  let lower_word := PyStr.lower word in
  default word (symbol_mappings !! lower_word).

Definition process_text (text : string) : string :=
  let words := PyStr.split text in
  let processed_words := process_word <$> words in
  PyStr.join " " processed_words.

(** The specification's reading of the substitution: two tokens are equal
    case-insensitively when their lowercase forms coincide, and a token is
    mapped when it equals one of the three keys in that sense. *)
Definition ci_eqb (a b : string) : bool :=
  bool_decide (PyStr.lower a = PyStr.lower b).

Definition is_mapped (w : string) : bool :=
  ci_eqb w "dash" || ci_eqb w "hyphen" || ci_eqb w "minus".

Definition normalize_token (w : string) : string :=
  if is_mapped w then "-" else w.

(** ** Numbers

    The engine's confidences and times are Python floats, the default of
    [dict.get] and [len] are ints. The pipeline only adds, divides and
    compares them, so it is written once over this interface.
    [float_PyNum] is what CPython computes with: binary64, every sum and
    quotient rounded. [Q_PyNum] is exact arithmetic, which CPython does
    not do: it serves to run the pipeline on inputs where the numbers do
    not matter, and to say what the loop would log without rounding. *)

Class PyNum (num : Type) := {
  num_of_nat : nat -> num;          (* an int, promoted where it meets a float *)
  num_add : num -> num -> num;      (* [+] *)
  num_div : num -> num -> num;      (* [/] on a non-zero divisor *)
  num_ltb : num -> num -> bool;     (* [<] *)
  num_0_8 : num                     (* the literal [0.8] *)
}.

#[export] Instance Q_PyNum : PyNum Q := {|
  num_of_nat n := inject_Z (Z.of_nat n);
  num_add := Qplus;
  num_div := Qdiv;
  num_ltb x y := negb (Qle_bool y x);
  num_0_8 := (4 # 5)%Q
|}.

#[export] Instance float_PyNum : PyNum float := {|
  num_of_nat n := PrimFloat.of_uint63 (Uint63.of_Z (Z.of_nat n));
  num_add := PrimFloat.add;
  num_div := PrimFloat.div;
  num_ltb := PrimFloat.ltb;
  num_0_8 := 0x1.999999999999ap-1%float
|}.

(** ** Data model *)

(** An audio block as queued by the capture callback: [bytes(indata)]. *)
Definition chunk : Type := list Byte.byte.

(** One entry of [result["result"]]; the loop reads [conf], [start] and
    [end] with [.get(key, 0)] and [word] with [word['word']]. *)
Record word_info (num : Type) := WordInfo {
  w_word : option string;
  w_conf : option num;
  w_start : option num;
  w_end : option num
}.
Arguments WordInfo {num} _ _ _ _.
Arguments w_word {num} _.
Arguments w_conf {num} _.
Arguments w_start {num} _.
Arguments w_end {num} _.

(** The dict decoded from [recognizer.Result()]: key ["text"], and key
    ["result"] (the word list), each of which may be absent. *)
Record vosk_result (num : Type) := VoskResult {
  r_text : option string;
  r_result : option (list (word_info num))
}.
Arguments VoskResult {num} _ _.
Arguments r_text {num} _.
Arguments r_result {num} _.

(** [result["text"] = value] *)
Definition set_text {num} (value : string) (result : vosk_result num) : vosk_result num :=
  VoskResult (Some value) (r_result result).

(** The exceptions the loop can meet. [QueueEmpty] is [queue.Empty]. *)
Inductive exn : Type :=
| ZeroDivisionError
| IndexError
| KeyError (key : string)
| QueueEmpty
| PortAudioError.

#[export] Instance exn_eq_dec : EqDecision exn.
Proof. solve_decision. Defined.

(** Calls on [self.logger], with the values that are formatted into the
    message. [LogWord] is the [debug] call, the others are [info],
    [warning] ([LogCallbackStatus]) and [error] ([LogError]). *)
Inductive log_record (num : Type) : Type :=
| LogStarted
| LogRecognizedSpan (start_time end_time : num) (text : string)
| LogConfidence (conf : num)
| LogWord (word : string) (word_conf start_time end_time : num)
| LogRecognized (text : string)
| LogCallbackStatus (status : string)
| LogError (e : exn)
| LogStopping.
Arguments LogStarted {num}.
Arguments LogRecognizedSpan {num} _ _ _.
Arguments LogConfidence {num} _.
Arguments LogWord {num} _ _ _ _.
Arguments LogRecognized {num} _.
Arguments LogCallbackStatus {num} _.
Arguments LogError {num} _.
Arguments LogStopping {num}.

(** The records of the per-word diagnostic, and those of the utterance
    time span. *)
Definition is_word_log {num} (r : log_record num) : Prop :=
  match r with
  | LogWord _ _ _ _ => True
  | _ => False
  end.

Definition is_span_log {num} (r : log_record num) : Prop :=
  match r with
  | LogRecognizedSpan _ _ _ => True
  | _ => False
  end.

(** What is logged after the confidence line when the word list is not
    empty: per-word diagnostics, then possibly the outer handler. *)
Definition is_tail_log {num} (r : log_record num) : Prop :=
  is_word_log r ∨ r = LogError (KeyError "word") ∨ r = LogStopping.

(** The records that carry the recognized text or a confidence figure. *)
Definition is_utterance_log {num} (r : log_record num) : Prop :=
  match r with
  | LogRecognizedSpan _ _ _ | LogRecognized _ | LogConfidence _ => True
  | _ => False
  end.

(** The engine, an external collaborator: [AcceptWaveform] tells whether
    the chunk closed an utterance, [Result] returns the decoded JSON of the
    closed utterance. Both may change the engine's state. *)
Class Transducer (num rec_state : Type) := {
  AcceptWaveform : rec_state -> chunk -> bool * rec_state;
  Result : rec_state -> vosk_result num * rec_state
}.

(** Heap locations of the Python lists that are shared by reference. *)
Definition loc : Type := positive.

(** Where [start_recognition] stands in the recognition thread. *)
Inductive pc : Type :=
| NotStarted      (* the thread has not run [self.running = True] yet *)
| AtWhile         (* about to test [while self.running] *)
| AtGet           (* inside [self.q.get()] *)
| Returned.       (* [start_recognition] has returned *)

#[export] Instance pc_eq_dec : EqDecision pc.
Proof. solve_decision. Defined.

(** The fields of an [AdvancedVoiceRecognition] object that the loop
    touches, the heap its list lives in, and the recognition thread's
    position. [device_ok] tells whether [sd.RawInputStream] opens. *)
Record state (num rec_state : Type) := State {
  running : bool;
  q : list chunk;
  recognizer : rec_state;
  recognition_history : loc;
  heap : gmap loc (list (vosk_result num));
  logger : list (log_record num);
  device_ok : bool;
  thread : pc
}.
Arguments State {num rec_state} _ _ _ _ _ _ _ _.
Arguments running {num rec_state} _.
Arguments q {num rec_state} _.
Arguments recognizer {num rec_state} _.
Arguments recognition_history {num rec_state} _.
Arguments heap {num rec_state} _.
Arguments logger {num rec_state} _.
Arguments device_ok {num rec_state} _.
Arguments thread {num rec_state} _.

(** ** A state-and-error monad for the method bodies

    A raised exception keeps the state reached so far: Python does not
    roll back the mutations made before the [raise]. *)

Inductive outcome (A : Type) : Type :=
| Ok (a : A)
| Raise (e : exn).
Arguments Ok {A} _.
Arguments Raise {A} _.

Definition M (S A : Type) : Type := S -> outcome A * S.

Definition ret {S A} (a : A) : M S A := fun s => (Ok a, s).

Definition raise {S A} (e : exn) : M S A := fun s => (Raise e, s).

Definition bind {S A B} (m : M S A) (k : A -> M S B) : M S B :=
  fun s =>
    match m s with
    | (Ok a, s') => k a s'
    | (Raise e, s') => (Raise e, s')
    end.

Notation "'let*' x ':=' m 'in' k" := (bind m (fun x => k))
  (at level 10, x name, m at level 100, k at level 200).
Notation "m ;; k" := (bind m (fun _ => k))
  (at level 100, k at level 200, right associativity).

(** [for x in xs: body(x)] *)
Fixpoint for_each {S A} (xs : list A) (body : A -> M S unit) : M S unit :=
  match xs with
  | [] => ret tt
  | x :: xs' => body x ;; for_each xs' body
  end.

(** ** The methods of [AdvancedVoiceRecognition] *)

Section Pipeline.

Context {num : Type} `{PyNum num}.
Context {rec_state : Type} `{Transducer num rec_state}.

Local Abbreviation st := (state num rec_state).
Local Abbreviation Mst := (M (state num rec_state)).

(** *** Field updates *)

Definition set_running (b : bool) (s : st) : st :=
  State b (q s) (recognizer s) (recognition_history s) (heap s) (logger s)
        (device_ok s) (thread s).

Definition set_q (q' : list chunk) (s : st) : st :=
  State (running s) q' (recognizer s) (recognition_history s) (heap s)
        (logger s) (device_ok s) (thread s).

Definition set_recognizer (r : rec_state) (s : st) : st :=
  State (running s) (q s) r (recognition_history s) (heap s) (logger s)
        (device_ok s) (thread s).

Definition set_heap (h : gmap loc (list (vosk_result num))) (s : st) : st :=
  State (running s) (q s) (recognizer s) (recognition_history s) h (logger s)
        (device_ok s) (thread s).

Definition set_thread (p : pc) (s : st) : st :=
  State (running s) (q s) (recognizer s) (recognition_history s) (heap s)
        (logger s) (device_ok s) p.

(** A call on [self.logger]: the record goes to the end of the log. *)
Definition log (r : log_record num) (s : st) : st :=
  State (running s) (q s) (recognizer s) (recognition_history s) (heap s)
        (logger s ++ [r]) (device_ok s) (thread s).

Definition log_m (r : log_record num) : Mst unit := fun s => (Ok tt, log r s).

(** [add_logs added s]: [s] after the calls [added] on the logger. *)
Definition add_logs (added : list (log_record num)) (s : st) : st :=
  State (running s) (q s) (recognizer s) (recognition_history s) (heap s)
        (logger s ++ added) (device_ok s) (thread s).

(** *** The heap of shared lists *)

(** The content of the list object at [l]. *)
Definition read_list (h : gmap loc (list (vosk_result num))) (l : loc)
  : list (vosk_result num) := default [] (h !! l).

(** [self.recognition_history.append(result)]: the list object is changed
    in place. *)
Definition history_append (result : vosk_result num) (s : st) : st :=
  let l := recognition_history s in
  set_heap (<[l := read_list (heap s) l ++ [result]]> (heap s)) s.

(** [get_recognition_history]: [return self.recognition_history], the
    reference held by the object. *)
Definition get_recognition_history (s : st) : loc := recognition_history s.

(** [clear_history]: [self.recognition_history.clear()], in place. *)
Definition clear_history (s : st) : st :=
  set_heap (<[recognition_history s := []]> (heap s)) s.

(** The content of the history, read through the object's own reference. *)
Definition history (s : st) : list (vosk_result num) :=
  read_list (heap s) (recognition_history s).

(** The state [__init__] leaves, for an engine in state [r0]: the queue is
    empty, the run flag is down and [recognition_history] is a fresh empty
    list. *)
Definition init (r0 : rec_state) (dev : bool) : st :=
  State false [] r0 1%positive {[ 1%positive := [] ]} [] dev NotStarted.

(** *** [process_audio_chunk] *)

(** The truth value of [result.get("text")]. *)
Definition text_truthy (t : option string) : bool :=
  match t with
  | Some t => negb (bool_decide (t = EmptyString))
  | None => false
  end.

Definition process_audio_chunk (audio_chunk : chunk)
  : Mst (option (vosk_result num)) := fun s =>
  let (finalized, r1) := AcceptWaveform (recognizer s) audio_chunk in
  let s := set_recognizer r1 s in
  if finalized then
    let (result, r2) := Result (recognizer s) in
    let s := set_recognizer r2 s in
    match r_text result with
    | Some text =>
        if text_truthy (Some text)
        then (Ok (Some (set_text (process_text text) result)), s)
        else (Ok None, s)
    | None => (Ok None, s)
    end
  else (Ok None, s).

(** *** The body of the [while] loop, once a chunk is out of the queue *)

(** [word.get("conf", 0)], [word.get("start", 0)], [word.get("end", 0)] *)
Definition get_conf (word : word_info num) : num := default (num_of_nat 0) (w_conf word).
Definition get_start (word : word_info num) : num := default (num_of_nat 0) (w_start word).
Definition get_end (word : word_info num) : num := default (num_of_nat 0) (w_end word).

(** [sum(xs)]: left to right, from the int [0]. *)
Definition py_sum (xs : list num) : num := fold_left num_add xs (num_of_nat 0).

(** [total / len(words)] *)
Definition py_div_len {A} (total : num) (words : list A) : Mst num :=
  match words with
  | [] => raise ZeroDivisionError
  | _ :: _ => ret (num_div total (num_of_nat (length words)))
  end.

(** [words[0]] and [words[-1]] *)
Definition py_first {A} (words : list A) : Mst A :=
  match words with
  | [] => raise IndexError
  | w :: _ => ret w
  end.

Definition py_last {A} (words : list A) : Mst A :=
  match last words with
  | None => raise IndexError
  | Some w => ret w
  end.

(** [word['word']] *)
Definition get_word (word : word_info num) : Mst string :=
  match w_word word with
  | Some w => ret w
  | None => raise (KeyError "word")
  end.

(** [result["text"]] *)
Definition get_text (result : vosk_result num) : Mst string :=
  match r_text result with
  | Some t => ret t
  | None => raise (KeyError "text")
  end.

(** The [for word in result["result"]] loop; the f-string is built before
    [logger.debug] is entered, so a word without key [word] raises. *)
Definition log_word (word : word_info num) : Mst unit :=
  let word_conf := get_conf word in
  if num_ltb word_conf num_0_8 then
    let* w := get_word word in
    log_m (LogWord w word_conf (get_start word) (get_end word))
  else ret tt.

(** Lines 136 to 164: everything in the [try] after [self.q.get()]. *)
Definition handle_chunk (audio_chunk : chunk) : Mst unit :=
  let* result := process_audio_chunk audio_chunk in
  match result with
  | Some result =>
      (fun s => (Ok tt, history_append result s)) ;;
      let* text := get_text result in
      match r_result result with
      | Some words =>
          let* conf := py_div_len (py_sum (get_conf <$> words)) words in
          let* first := py_first words in
          let* final := py_last words in
          let start_time := get_start first in
          let end_time := get_end final in
          log_m (LogRecognizedSpan start_time end_time text) ;;
          log_m (LogConfidence conf) ;;
          for_each words log_word
      | None => log_m (LogRecognized text)
      end
  | None => ret tt
  end.

(** *** [stop_recognition], [callback] *)

Definition stop_recognition (s : st) : st :=
  log LogStopping (set_running false s).

(** The stream exists while the thread is inside the [with] block. *)
Definition stream_open (s : st) : bool :=
  match thread s with
  | AtWhile | AtGet => true
  | NotStarted | Returned => false
  end.

(** [callback(indata, frames, time, status)]: a warning when the status
    flags are not empty, then [self.q.put(bytes(indata))], always. *)
Definition callback (indata : chunk) (status : option string) (s : st) : st :=
  let s := match status with
           | Some flags =>
               if bool_decide (flags = EmptyString) then s
               else log (LogCallbackStatus flags) s
           | None => s
           end in
  set_q (q s ++ [indata]) s.

(** *** [start_recognition], one step of the recognition thread at a time

    - [NotStarted]: [self.running = True], then the stream is opened; a
      failure is caught by the outer [except Exception].
    - [AtWhile]: the test of [while self.running].
    - [AtGet]: [self.q.get()] has neither timeout nor [block=False]; on an
      empty queue the thread stays where it is. With a chunk, the body runs;
      [queue.Empty] is caught inside the loop, any other exception by the
      outer handler, which logs it, calls [stop_recognition] and returns. *)
Definition thread_step (s : st) : st :=
  match thread s with
  | NotStarted =>
      let s := set_running true s in
      if device_ok s then set_thread AtWhile (log LogStarted s)
      else set_thread Returned (stop_recognition (log (LogError PortAudioError) s))
  | AtWhile =>
      if running s then set_thread AtGet s else set_thread Returned s
  | AtGet =>
      match q s with
      | [] => s
      | audio_chunk :: rest =>
          match handle_chunk audio_chunk (set_q rest s) with
          | (Ok _, s') => set_thread AtWhile s'
          | (Raise QueueEmpty, s') => set_thread AtWhile s'
          | (Raise e, s') =>
              set_thread Returned (stop_recognition (log (LogError e) s'))
          end
      end
  | Returned => s
  end.

(** What can happen to the object: the recognition thread moves, the audio
    library delivers a block, or the controlling thread calls
    [stop_recognition]. The audio library calls [callback] only while the
    stream exists; a delivery outside the [with] block does not happen. *)
Inductive event : Type :=
| Consumer
| Callback (indata : chunk) (status : option string)
| Stop.

Definition step (e : event) (s : st) : st :=
  match e with
  | Consumer => thread_step s
  | Callback indata status =>
      if stream_open s then callback indata status s else s
  | Stop => stop_recognition s
  end.

(** A schedule, run from left to right. *)
Definition run (es : list event) (s : st) : st :=
  fold_left (fun s e => step e s) es s.

(** *** Readings of the loop used by the properties below *)

(** The engine after one turn on [audio_chunk]: [AcceptWaveform] always
    runs, [Result] only after a finalized chunk. *)
Definition engine_after (r : rec_state) (audio_chunk : chunk) : rec_state :=
  let (finalized, r1) := AcceptWaveform r audio_chunk in
  if finalized then snd (Result r1) else r1.

(** The record the per-word loop logs for one word, if any: the words
    whose confidence is below 0.8, provided they have the key [word]. *)
Definition word_diagnostic (word : word_info num) : option (log_record num) :=
  if num_ltb (get_conf word) num_0_8 then
    (fun name => LogWord name (get_conf word) (get_start word) (get_end word))
      <$> w_word word
  else None.

(** A word on which the per-word loop raises [KeyError]. *)
Definition lacks_word_key (word : word_info num) : Prop :=
  num_ltb (get_conf word) num_0_8 = true ∧ w_word word = None.

(** The audio library delivering [blocks], one callback each. *)
Definition deliveries (blocks : list (chunk * option string)) : list event :=
  (fun b => Callback (fst b) (snd b)) <$> blocks.

End Pipeline.

(** The text carried by an utterance line of the log, and the texts of a
    log and of a history, in order. *)
Definition logged_text {num} (r : log_record num) : option string :=
  match r with
  | LogRecognizedSpan _ _ text | LogRecognized text => Some text
  | _ => None
  end.

Definition logged_texts {num} (l : list (log_record num)) : list string :=
  omap logged_text l.

Definition stored_texts {num} (h : list (vosk_result num)) : list string :=
  omap r_text h.

(** The arithmetic mean as the specification has it: the sum of the
    values over their number. *)
Definition arithmetic_mean (xs : list Q) : Q :=
  (fold_right Qplus 0 xs / inject_Z (Z.of_nat (length xs)))%Q.



(** ** A scripted engine

    A stand-in for [KaldiRecognizer] with a fixed script: the n-th chunk
    closes an utterance when the n-th entry is [Some result]; [Result]
    hands out the utterance closed last (Vosk answers an empty text when
    there is none). It only serves to run the pipeline on concrete
    inputs. *)

Record scripted (num : Type) := Scripted {
  pending : option (vosk_result num);
  script : list (option (vosk_result num))
}.
Arguments Scripted {num} _ _.
Arguments pending {num} _.
Arguments script {num} _.

#[export] Instance scripted_Transducer (num : Type) : Transducer num (scripted num) := {|
  AcceptWaveform r _ :=
    match script r with
    | [] => (false, r)
    | None :: rest => (false, Scripted (pending r) rest)
    | Some result :: rest => (true, Scripted (Some result) rest)
    end;
  Result r :=
    (default (VoskResult (Some EmptyString) None) (pending r),
     Scripted None (script r))
|}.

(** An engine that has heard nothing yet and follows [sc]. *)
Definition play {num} (sc : list (option (vosk_result num))) : scripted num :=
  Scripted None sc.

(** One 16-bit sample of silence, as a block. *)
Definition silence : chunk := [Byte.x00; Byte.x00].

(** Utterances for the scripted engine: two words with confidences 1.0 and
    0.5 that span 0.1 s to 2.6 s, a text without word list, and a text with
    an empty word list. *)
Definition two_words : vosk_result Q :=
  VoskResult (Some "volume MINUS")
    (Some [WordInfo (Some "volume") (Some 1%Q) (Some (1 # 10)%Q) (Some (2 # 5)%Q);
           WordInfo (Some "MINUS") (Some (1 # 2)%Q) (Some 2%Q) (Some (13 # 5)%Q)]).

Definition no_words : vosk_result Q := VoskResult (Some "hello") None.

Definition empty_words : vosk_result Q := VoskResult (Some "hello") (Some []).

(** The object once the thread waits in [q.get()] and one block has been
    delivered, for an engine that follows [sc]. *)
Definition listening (sc : list (option (vosk_result Q))) : state Q (scripted Q) :=
  run [Consumer; Consumer; Callback silence None] (init (play sc) true).

(** Two words, the second of low confidence and without the key [word]. *)
Definition nameless_word : vosk_result Q :=
  VoskResult (Some "go on")
    (Some [WordInfo (Some "go") (Some 1%Q) (Some 0%Q) (Some (1 # 2)%Q);
           WordInfo None (Some (1 # 2)%Q) (Some (1 # 2)%Q) (Some 1%Q)]).

(** A non-empty text made of separators only. *)
Definition blank_text : vosk_result Q := VoskResult (Some "  ") None.



(** The same utterance on binary64 floats. *)
Definition two_words_float : vosk_result float :=
  VoskResult (Some "volume MINUS")
    (Some [WordInfo (Some "volume") (Some 1%float) (Some 0x1.999999999999ap-4%float)
                    (Some 0x1.999999999999ap-2%float);
           WordInfo (Some "MINUS") (Some 0.5%float) (Some 2%float)
                    (Some 0x1.4cccccccccccdp+1%float)]).

(** * Properties *)

(** ** Strings *)

Section StringFacts.

Import PyStr.

Lemma append_cons (c : ascii) (a b : string) :
  String c a +:+ b = String c (a +:+ b).
Proof. reflexivity. Qed.

Lemma append_nil_l (b : string) : "" +:+ b = b.
Proof. reflexivity. Qed.

Lemma append_nil_r (s : string) : s +:+ "" = s.
Proof.
  induction s as [|c s IH]; [done |]. by rewrite append_cons, IH.
Qed.

Lemma append_assoc (a b c : string) : (a +:+ b) +:+ c = a +:+ b +:+ c.
Proof.
  induction a as [|x a IH]; [done |]. by rewrite !append_cons, IH.
Qed.

Lemma nospace_append (a b : string) :
  nospace (a +:+ b) = nospace a && nospace b.
Proof.
  induction a as [|x a IH]; [done |].
  rewrite append_cons. simpl. rewrite IH. by rewrite andb_assoc.
Qed.

(** Reading a run without separator only extends the current token. *)
Lemma split_from_run (t : string) :
  nospace t = true ->
  forall cur rest, split_from cur (t +:+ rest) = split_from (cur +:+ t) rest.
Proof.
  induction t as [|c t IH]; intros Ht cur rest.
  - by rewrite append_nil_l, append_nil_r.
  - simpl in Ht. apply andb_true_iff in Ht as [Hc Ht].
    apply negb_true_iff in Hc.
    rewrite append_cons. simpl. rewrite Hc.
    rewrite (IH Ht). by rewrite append_assoc.
Qed.

Lemma split_from_end (cur : string) : cur ≠ "" -> split_from cur "" = [cur].
Proof. intros Hcur. simpl. by destruct (decide (cur = "")). Qed.

Lemma split_from_sep (cur rest : string) :
  cur ≠ "" -> split_from cur (" " +:+ rest) = cur :: split_from "" rest.
Proof.
  intros Hcur. rewrite append_cons, append_nil_l. simpl.
  by destruct (decide (cur = "")).
Qed.

(** [split] undoes [join " "] on tokens. *)
Lemma split_join (ts : list string) :
  Forall is_token ts -> split (join " " ts) = ts.
Proof.
  unfold split. induction 1 as [|w ws [Hne Hns] Hws IH]; [done |].
  destruct ws as [|w2 ws].
  - simpl join. rewrite <- (append_nil_r w) at 1.
    rewrite (split_from_run w Hns), append_nil_l. by apply split_from_end.
  - change (join " " (w :: w2 :: ws)) with (w +:+ " " +:+ join " " (w2 :: ws)).
    rewrite (split_from_run w Hns), append_nil_l.
    rewrite split_from_sep by done. by rewrite IH.
Qed.

(** Whatever [split] returns is a list of tokens. *)
Lemma split_from_tokens (s : string) :
  forall cur, nospace cur = true -> Forall is_token (split_from cur s).
Proof.
  induction s as [|c s IH]; intros cur Hcur; simpl.
  - destruct (decide (cur = "")); [constructor |].
    constructor; [done | constructor].
  - destruct (isspace c) eqn:Hc.
    + destruct (decide (cur = "")); [by apply IH |].
      constructor; [done | by apply IH].
    + apply IH. rewrite nospace_append. simpl. by rewrite Hcur, Hc.
Qed.

Lemma split_tokens (s : string) : Forall is_token (split s).
Proof. by apply split_from_tokens. Qed.

(** The dict lookup of [process_word] is the three-way test of the
    specification. *)
Lemma process_word_normalize (w : string) : process_word w = normalize_token w.
Proof.
  unfold process_word, normalize_token, is_mapped, ci_eqb, symbol_mappings.
  change (lower "dash") with "dash".
  change (lower "hyphen") with "hyphen".
  change (lower "minus") with "minus".
  generalize (lower w); intros l.
  rewrite !lookup_insert, lookup_empty.
  repeat case_bool_decide; repeat case_decide; simpl; congruence.
Qed.

Lemma normalize_token_is_token (w : string) :
  is_token w -> is_token (normalize_token w).
Proof.
  intros Hw. unfold normalize_token. destruct (is_mapped w); [| done].
  split; [discriminate | reflexivity].
Qed.

Lemma normalize_token_idemp (w : string) :
  normalize_token (normalize_token w) = normalize_token w.
Proof.
  unfold normalize_token at 2 3. destruct (is_mapped w) eqn:Hw.
  - reflexivity.
  - unfold normalize_token. by rewrite Hw.
Qed.

Lemma normalize_token_unmapped (w : string) :
  is_mapped w = false -> normalize_token w = w.
Proof. intros Hw. unfold normalize_token. by rewrite Hw. Qed.

Lemma process_text_join (text : string) :
  process_text text = join " " (normalize_token <$> split text).
Proof.
  unfold process_text. f_equal.
  apply list_fmap_ext. intros _ w _. apply process_word_normalize.
Qed.

Lemma normalize_tokens (ts : list string) :
  Forall is_token ts -> Forall is_token (normalize_token <$> ts).
Proof.
  intros Hts. apply Forall_fmap. eapply Forall_impl; [exact Hts |].
  intros w Hw. by apply normalize_token_is_token.
Qed.

Lemma split_process_text (text : string) :
  split (process_text text) = normalize_token <$> split text.
Proof.
  rewrite process_text_join. apply split_join, normalize_tokens, split_tokens.
Qed.

End StringFacts.

(** ** PostProcessor *)

(** C3. For every text, the tokens of [process_text text] are the
    whitespace-delimited tokens of [text], in the same order, where each
    token that equals "dash", "hyphen" or "minus" case-insensitively is
    replaced wholesale by "-" and every other token is kept as it is, and
    the result is these tokens joined by one space. The lookup is on whole
    tokens: "dashboard" and "minus-one" are kept. In particular
    [process_text "Turn DASH up" = "Turn - up"]. *)
Theorem process_text_replaces_mapped_tokens :
  (forall text : string,
     PyStr.split (process_text text)
       = (fun w => if is_mapped w then "-" else w) <$> PyStr.split text
     ∧ process_text text
       = PyStr.join " " ((fun w => if is_mapped w then "-" else w) <$> PyStr.split text))
  ∧ (forall word : string, process_word word = if is_mapped word then "-" else word)
  ∧ process_text "Turn DASH up" = "Turn - up"
  ∧ process_text "hyphen Minus dAsH" = "- - -"
  ∧ process_text "dashboard minus-one" = "dashboard minus-one".
Proof.
  split; [| split; [| by vm_compute]].
  - intros text. split.
    + apply split_process_text.
    + apply process_text_join.
  - apply process_word_normalize.
Qed.

(** C4, as the specification states it, fails: a text without mapped token
    whose tokens are two spaces apart comes back with one space. *)
Lemma process_text_not_identity :
  Forall (fun w => is_mapped w = false) (PyStr.split "a  b")
  ∧ process_text "a  b" ≠ "a  b".
Proof.
  split.
  - vm_compute. repeat constructor.
  - vm_compute. discriminate.
Qed.

(** C4, amended. For every text without mapped token, [process_text]
    returns its tokens joined by one space; so it returns the text itself
    whenever the text is a list of tokens joined by one space (no leading,
    trailing or repeated separator, no separator other than the space). *)
Theorem process_text_unmapped (text : string)
  (Hunmapped : Forall (fun w => is_mapped w = false) (PyStr.split text)) :
  process_text text = PyStr.join " " (PyStr.split text)
  ∧ forall ts, Forall PyStr.is_token ts -> text = PyStr.join " " ts ->
      process_text text = text.
Proof.
  assert (Hid : normalize_token <$> PyStr.split text = PyStr.split text).
  { rewrite <- (list_fmap_id (PyStr.split text)) at 2.
    apply Forall_fmap_ext. eapply Forall_impl; [exact Hunmapped |].
    intros w Hw. by apply normalize_token_unmapped. }
  split.
  - by rewrite process_text_join, Hid.
  - intros ts Hts ->.
    rewrite process_text_join, Hid. by rewrite split_join.
Qed.

Lemma process_text_unmapped_witness :
  process_text "turn it up" = PyStr.join " " (PyStr.split "turn it up")
  ∧ forall ts, Forall PyStr.is_token ts -> "turn it up" = PyStr.join " " ts ->
      process_text "turn it up" = "turn it up".
Proof.
  apply (process_text_unmapped "turn it up").
  vm_compute. repeat constructor.
Defined.

(** C10. [process_text] is idempotent. *)
Theorem process_text_idempotent (text : string) :
  process_text (process_text text) = process_text text.
Proof.
  rewrite (process_text_join (process_text text)), split_process_text.
  rewrite process_text_join. f_equal.
  rewrite <- list_fmap_compose. apply list_fmap_ext.
  intros _ w _. apply normalize_token_idemp.
Qed.

(** ** The loop body *)

Section PipelineFacts.

Context {num : Type} `{PyNum num}.
Context {rec_state : Type} `{Transducer num rec_state}.

Local Abbreviation st := (state num rec_state).

Lemma add_logs_nil (s : st) : add_logs [] s = s.
Proof. destruct s. unfold add_logs. simpl. by rewrite app_nil_r. Qed.

Lemma add_logs_app (a b : list (log_record num)) (s : st) :
  add_logs b (add_logs a s) = add_logs (a ++ b) s.
Proof. unfold add_logs. simpl. by rewrite app_assoc. Qed.

Lemma log_add_logs (r : log_record num) (s : st) : log r s = add_logs [r] s.
Proof. reflexivity. Qed.

Lemma history_add_logs (added : list (log_record num)) (s : st) :
  history (add_logs added s) = history s.
Proof. reflexivity. Qed.

Lemma history_append_history (r : vosk_result num) (s : st) :
  history (history_append r s) = history s ++ [r].
Proof.
  unfold history, history_append, read_list. simpl.
  by rewrite lookup_insert_eq.
Qed.

Lemma clear_history_history (s : st) : history (clear_history s) = [].
Proof.
  unfold history, clear_history, read_list. simpl.
  by rewrite lookup_insert_eq.
Qed.

Lemma for_each_cons_ok {A} (body : A -> M st unit) x xs (s s1 : st) :
  body x s = (Ok tt, s1) -> for_each (x :: xs) body s = for_each xs body s1.
Proof. intros Hx. cbn [for_each]. unfold bind. by rewrite Hx. Qed.

Lemma for_each_cons_raise {A} (body : A -> M st unit) x xs e (s s1 : st) :
  body x s = (Raise e, s1) -> for_each (x :: xs) body s = (Raise e, s1).
Proof. intros Hx. cbn [for_each]. unfold bind. by rewrite Hx. Qed.

(** The three ways through the body of the per-word loop. *)
Lemma log_word_cases (w : word_info num) (s : st) :
  (num_ltb (get_conf w) num_0_8 = false ∧ log_word w s = (Ok tt, s))
  ∨ (exists name, w_word w = Some name
       ∧ log_word w s
         = (Ok tt, log (LogWord name (get_conf w) (get_start w) (get_end w)) s))
  ∨ (w_word w = None ∧ log_word w s = (Raise (KeyError "word"), s)).
Proof.
  unfold log_word. destruct (num_ltb (get_conf w) num_0_8); [| by left].
  right. unfold bind, get_word. destruct (w_word w) as [name|].
  - left. by exists name.
  - by right.
Qed.

(** The per-word loop only logs, and only [LogWord] records; it can stop
    early on a word without key [word]. *)
Lemma for_each_log_word (words : list (word_info num)) (s : st) :
  exists added,
    snd (for_each words log_word s) = add_logs added s
    ∧ Forall is_word_log added
    ∧ (fst (for_each words log_word s) = Ok tt
       ∨ fst (for_each words log_word s) = Raise (KeyError "word")).
Proof.
  revert s. induction words as [|w ws IH]; intros s.
  - exists []. simpl. rewrite add_logs_nil. auto.
  - destruct (log_word_cases w s) as [[_ Hw] | [(name & _ & Hw) | [_ Hw]]].
    + rewrite (for_each_cons_ok _ _ _ _ _ Hw). apply IH.
    + rewrite (for_each_cons_ok _ _ _ _ _ Hw).
      destruct (IH (log (LogWord name (get_conf w) (get_start w) (get_end w)) s))
        as (added & Hs & Hadded & Hout).
      exists (LogWord name (get_conf w) (get_start w) (get_end w) :: added).
      split; [| split; [by constructor | exact Hout]].
      rewrite Hs, log_add_logs, add_logs_app. reflexivity.
    + rewrite (for_each_cons_raise _ _ _ _ _ _ Hw).
      exists []. simpl. rewrite add_logs_nil. auto.
Qed.

(** What [process_audio_chunk] answers, by what the engine says. *)
Lemma process_audio_chunk_eq (c : chunk) (s : st) fin r1 res r2 :
  AcceptWaveform (recognizer s) c = (fin, r1) ->
  Result r1 = (res, r2) ->
  process_audio_chunk c s =
    if fin then
      if text_truthy (r_text res)
      then (Ok (Some (set_text (process_text (default "" (r_text res))) res)),
            set_recognizer r2 s)
      else (Ok None, set_recognizer r2 s)
    else (Ok None, set_recognizer r1 s).
Proof.
  intros Hacc Hres. unfold process_audio_chunk. rewrite Hacc.
  destruct fin; [| done]. simpl. rewrite Hres.
  destruct (r_text res) as [text|]; [| done]. simpl.
  by destruct (bool_decide (text = "")).
Qed.

(** A chunk that closes no utterance, or one without text, only moves the
    engine. *)
Lemma handle_chunk_skip (c : chunk) (s : st) fin r1 res r2 :
  AcceptWaveform (recognizer s) c = (fin, r1) ->
  Result r1 = (res, r2) ->
  fin && text_truthy (r_text res) = false ->
  handle_chunk c s = (Ok tt, set_recognizer (if fin then r2 else r1) s).
Proof.
  intros Hacc Hres Hno. unfold handle_chunk, bind.
  rewrite (process_audio_chunk_eq c s fin r1 res r2 Hacc Hres).
  destruct fin; [| done]. simpl in Hno. by rewrite Hno.
Qed.

(** A chunk that closes an utterance with a text: the result is appended
    first, then the three shapes of the word list part ways. *)
Lemma handle_chunk_text (c : chunk) (s : st) r1 res r2 text :
  AcceptWaveform (recognizer s) c = (true, r1) ->
  Result r1 = (res, r2) ->
  r_text res = Some text -> text ≠ "" ->
  let result := set_text (process_text text) res in
  let s1 := history_append result (set_recognizer r2 s) in
  handle_chunk c s =
    match r_result res with
    | None => (Ok tt, log (LogRecognized (process_text text)) s1)
    | Some [] => (Raise ZeroDivisionError, s1)
    | Some (w :: ws) =>
        for_each (w :: ws) log_word
          (log (LogConfidence
                  (num_div (py_sum (get_conf <$> w :: ws))
                           (num_of_nat (length (w :: ws)))))
             (log (LogRecognizedSpan (get_start w)
                     (get_end (default w (last (w :: ws))))
                     (process_text text)) s1))
    end.
Proof.
  intros Hacc Hres Htext Hne result s1.
  assert (Hpac : process_audio_chunk c s = (Ok (Some result), set_recognizer r2 s)).
  { rewrite (process_audio_chunk_eq c s true r1 res r2 Hacc Hres), Htext.
    unfold text_truthy. by rewrite bool_decide_eq_false_2. }
  unfold handle_chunk. unfold bind at 1. rewrite Hpac.
  unfold bind at 1. fold s1.
  unfold bind at 1. unfold get_text, result at 1. cbn [set_text r_text ret].
  change (r_result result) with (r_result res).
  destruct (r_result res) as [[|w ws]|]; [reflexivity | | reflexivity].
  unfold bind at 1. cbn [py_div_len ret].
  unfold bind at 1. cbn [py_first ret].
  unfold bind at 1, py_last.
  destruct (last (w :: ws)) as [final|] eqn:Hlast.
  - reflexivity.
  - apply last_None in Hlast. discriminate.
Qed.

(** *** One turn of the recognition thread *)

Lemma thread_step_get (s : st) c rest :
  thread s = AtGet -> q s = c :: rest ->
  thread_step s =
    match handle_chunk c (set_q rest s) with
    | (Ok _, s') => set_thread AtWhile s'
    | (Raise QueueEmpty, s') => set_thread AtWhile s'
    | (Raise e, s') => set_thread Returned (stop_recognition (log (LogError e) s'))
    end.
Proof. intros Hpc Hq. unfold thread_step. by rewrite Hpc, Hq. Qed.

(** The turn on a chunk that yields no result. *)
Lemma thread_step_skip (s : st) c rest fin r1 res r2 :
  thread s = AtGet -> q s = c :: rest ->
  AcceptWaveform (recognizer s) c = (fin, r1) ->
  Result r1 = (res, r2) ->
  fin && text_truthy (r_text res) = false ->
  thread_step s
  = set_thread AtWhile (set_recognizer (if fin then r2 else r1) (set_q rest s)).
Proof.
  intros Hpc Hq Hacc Hres Hno. rewrite (thread_step_get s c rest Hpc Hq).
  by rewrite (handle_chunk_skip c (set_q rest s) fin r1 res r2 Hacc Hres Hno).
Qed.

(** The turn on a chunk that closes an utterance with a text. *)
Lemma thread_step_text (s : st) c rest r1 res r2 text :
  thread s = AtGet -> q s = c :: rest ->
  AcceptWaveform (recognizer s) c = (true, r1) ->
  Result r1 = (res, r2) ->
  r_text res = Some text -> text ≠ "" ->
  history (thread_step s) = history s ++ [set_text (process_text text) res]
  ∧ match r_result res with
    | None =>
        logger (thread_step s) = logger s ++ [LogRecognized (process_text text)]
        ∧ thread (thread_step s) = AtWhile
        ∧ running (thread_step s) = running s
    | Some [] =>
        logger (thread_step s)
        = logger s ++ [LogError ZeroDivisionError; LogStopping]
        ∧ thread (thread_step s) = Returned
        ∧ running (thread_step s) = false
    | Some (w :: ws) =>
        exists more,
          logger (thread_step s)
          = logger s
            ++ LogRecognizedSpan (get_start w)
                 (get_end (default w (last (w :: ws)))) (process_text text)
            :: LogConfidence
                 (num_div (py_sum (get_conf <$> w :: ws))
                          (num_of_nat (length (w :: ws))))
            :: more
          ∧ Forall is_tail_log more
    end.
Proof.
  intros Hpc Hq Hacc Hres Htext Hne.
  rewrite (thread_step_get s c rest Hpc Hq).
  rewrite (handle_chunk_text c (set_q rest s) r1 res r2 text Hacc Hres Htext Hne).
  destruct (r_result res) as [[|w ws]|].
  - split; [apply (history_append_history _ (set_recognizer r2 (set_q rest s))) |].
    simpl. by rewrite <- app_assoc.
  - match goal with
    | |- context [for_each ?ws ?f ?s0] =>
        destruct (for_each_log_word ws s0) as (added & Hs & Hadded & Hout);
        destruct (for_each ws f s0) as [o s'] eqn:Hrun
    end.
    simpl in Hs, Hout. subst s'.
    destruct Hout as [-> | ->].
    + split; [apply (history_append_history _ (set_recognizer r2 (set_q rest s))) |].
      exists added. split.
      * simpl. by rewrite <- !app_assoc.
      * eapply Forall_impl; [exact Hadded |]. intros r Hr. by left.
    + split; [apply (history_append_history _ (set_recognizer r2 (set_q rest s))) |].
      exists (added ++ [LogError (KeyError "word"); LogStopping]). split.
      * simpl. by rewrite <- !app_assoc.
      * apply Forall_app. split.
        -- eapply Forall_impl; [exact Hadded |]. intros r Hr. by left.
        -- constructor; [by right; left |].
           constructor; [by right; right | constructor].
  - split; [apply (history_append_history _ (set_recognizer r2 (set_q rest s))) |].
    done.
Qed.

Lemma text_truthy_true (t : option string) :
  text_truthy t = true -> exists text, t = Some text ∧ text ≠ "".
Proof.
  destruct t as [text|]; [| discriminate]. simpl. intros Hne.
  exists text. split; [done |].
  apply negb_true_iff, bool_decide_eq_false in Hne. done.
Qed.

(** Whatever the recognition thread does in one step, the history keeps
    its content and at most grows at the end. *)
Lemma thread_step_history (s : st) :
  exists added, history (thread_step s) = history s ++ added.
Proof.
  destruct (thread s) eqn:Hpc.
  - exists []. rewrite app_nil_r. unfold thread_step. rewrite Hpc.
    simpl. by destruct (device_ok s).
  - exists []. rewrite app_nil_r. unfold thread_step. rewrite Hpc.
    by destruct (running s).
  - destruct (q s) as [|c rest] eqn:Hq.
    + exists []. rewrite app_nil_r. unfold thread_step. by rewrite Hpc, Hq.
    + destruct (AcceptWaveform (recognizer s) c) as [fin r1] eqn:Hacc.
      destruct (Result r1) as [res r2] eqn:Hres.
      destruct (fin && text_truthy (r_text res)) eqn:Hyes.
      * apply andb_true_iff in Hyes as [-> Htruthy].
        apply text_truthy_true in Htruthy as (text & Htext & Hne).
        exists [set_text (process_text text) res].
        by apply (thread_step_text s c rest r1 res r2 text).
      * exists []. rewrite app_nil_r.
        by rewrite (thread_step_skip s c rest fin r1 res r2).
  - exists []. rewrite app_nil_r. unfold thread_step. by rewrite Hpc.
Qed.

Lemma callback_history (indata : chunk) status (s : st) :
  history (callback indata status s) = history s.
Proof.
  unfold callback. destruct status as [flags|]; [| done].
  by destruct (bool_decide (flags = "")).
Qed.

Lemma step_history (e : event) (s : st) :
  exists added, history (step e s) = history s ++ added.
Proof.
  destruct e as [| indata status |]; simpl.
  - apply thread_step_history.
  - exists []. rewrite app_nil_r.
    destruct (stream_open s); [apply callback_history | done].
  - exists []. by rewrite app_nil_r.
Qed.

Lemma run_cons (e : event) es (s : st) : run (e :: es) s = run es (step e s).
Proof. reflexivity. Qed.

Lemma run_app (es1 es2 : list event) (s : st) :
  run (es1 ++ es2) s = run es2 (run es1 s).
Proof. unfold run. apply fold_left_app. Qed.

Lemma run_history (es : list event) (s : st) :
  exists added, history (run es s) = history s ++ added.
Proof.
  revert s. induction es as [|e es IH]; intros s.
  - exists []. by rewrite app_nil_r.
  - rewrite run_cons. destruct (IH (step e s)) as [a2 H2].
    destruct (step_history e s) as [a1 H1].
    exists (a1 ++ a2). by rewrite H2, H1, app_assoc.
Qed.

(** Once [start_recognition] has returned, nothing moves the thread. *)
Lemma run_returned (es : list event) (s : st) :
  thread s = Returned -> thread (run es s) = Returned.
Proof.
  revert s. induction es as [|e es IH]; intros s Hpc; [done |].
  rewrite run_cons. apply IH. destruct e as [| indata status |]; simpl.
  - unfold thread_step. by rewrite Hpc.
  - unfold stream_open. by rewrite Hpc.
  - done.
Qed.

(** A thread inside [q.get()] with nothing queued does not move. *)
Lemma thread_step_blocked (s : st) :
  thread s = AtGet -> q s = [] -> thread_step s = s.
Proof. intros Hpc Hq. unfold thread_step. by rewrite Hpc, Hq. Qed.

Lemma run_blocked (n : nat) (s : st) :
  thread s = AtGet -> q s = [] -> run (repeat Consumer n) s = s.
Proof.
  intros Hpc Hq. induction n as [|n IH]; [done |].
  cbn [repeat]. rewrite run_cons. simpl step.
  by rewrite thread_step_blocked.
Qed.

End PipelineFacts.

(** ** The recognition loop and the history store *)

Section LoopClaims.

Context {num : Type} `{PyNum num}.
Context {rec_state : Type} `{Transducer num rec_state}.

Local Abbreviation st := (state num rec_state).

(** C7. One turn of the loop on a dequeued chunk. When the engine reports
    a finalized utterance whose text [t] is present and not the empty
    string, [process_audio_chunk] produces the result with the normalized
    text and the history gets it appended; a result is produced only in
    that case; a chunk that is not finalized and a hypothesis whose text
    is absent or the empty string produce nothing and leave the history
    as it was. *)
Theorem result_only_for_finalized_text (s : st) c rest fin r1 res r2
  (Hpc : thread s = AtGet) (Hq : q s = c :: rest)
  (Hacc : AcceptWaveform (recognizer s) c = (fin, r1))
  (Hres : Result r1 = (res, r2)) :
  (forall t, fin = true -> r_text res = Some t -> t ≠ "" ->
     fst (process_audio_chunk c (set_q rest s))
     = Ok (Some (set_text (process_text t) res))
     ∧ history (thread_step s) = history s ++ [set_text (process_text t) res])
  ∧ (forall result,
       fst (process_audio_chunk c (set_q rest s)) = Ok (Some result) ->
       fin = true
       ∧ exists t, r_text res = Some t ∧ t ≠ ""
                   ∧ result = set_text (process_text t) res)
  ∧ (fin = false ∨ r_text res = None ∨ r_text res = Some "" ->
     fst (process_audio_chunk c (set_q rest s)) = Ok None
     ∧ history (thread_step s) = history s).
Proof.
  assert (Hyes : forall t, fin = true -> r_text res = Some t -> t ≠ "" ->
            fst (process_audio_chunk c (set_q rest s))
            = Ok (Some (set_text (process_text t) res))
            ∧ history (thread_step s)
              = history s ++ [set_text (process_text t) res]).
  { intros t -> Ht Hne. split.
    - rewrite (process_audio_chunk_eq c (set_q rest s) true r1 res r2 Hacc Hres).
      rewrite Ht. unfold text_truthy. by rewrite bool_decide_eq_false_2.
    - by apply (thread_step_text s c rest r1 res r2 t). }
  assert (Hno : fin = false ∨ r_text res = None ∨ r_text res = Some "" ->
            fst (process_audio_chunk c (set_q rest s)) = Ok None
            ∧ history (thread_step s) = history s).
  { intros Hcase.
    assert (Hfalse : fin && text_truthy (r_text res) = false).
    { destruct Hcase as [-> | [-> | ->]]; [done | by destruct fin ..]. }
    rewrite (process_audio_chunk_eq c (set_q rest s) fin r1 res r2 Hacc Hres).
    rewrite (thread_step_skip s c rest fin r1 res r2 Hpc Hq Hacc Hres Hfalse).
    destruct fin; [| done]. simpl in Hfalse. by rewrite Hfalse. }
  split; [exact Hyes |]. split; [| exact Hno].
  intros result Hprod.
  destruct fin.
  - destruct (r_text res) as [t|] eqn:Ht.
    + destruct (decide (t = "")) as [-> | Hne].
      * destruct Hno as [Hnone _]; [by right; right |]. congruence.
      * destruct (Hyes t eq_refl eq_refl Hne) as [Hsome _].
        split; [done |]. exists t. split; [done |]. split; [done |]. congruence.
    + destruct Hno as [Hnone _]; [by right; left |]. congruence.
  - destruct Hno as [Hnone _]; [by left |]. congruence.
Qed.

(** C6. On a finalized utterance with text, the turn logs a time span
    only when the word list is not empty, and then one span, which runs
    from the start of the first word to the end of the last word; with an
    empty or absent word list no span is logged. *)
Theorem utterance_span_first_to_last (s : st) c rest r1 res r2 text
  (Hpc : thread s = AtGet) (Hq : q s = c :: rest)
  (Hacc : AcceptWaveform (recognizer s) c = (true, r1))
  (Hres : Result r1 = (res, r2))
  (Htext : r_text res = Some text) (Hne : text ≠ "") :
  exists added,
    logger (thread_step s) = logger s ++ added
    ∧ (forall words first final start_time end_time,
         r_result res = Some words ->
         head words = Some first -> last words = Some final ->
         w_start first = Some start_time -> w_end final = Some end_time ->
         exists more,
           added = LogRecognizedSpan start_time end_time (process_text text) :: more
           ∧ Forall (fun r => ¬ is_span_log r) more)
    ∧ (r_result res = Some [] ∨ r_result res = None ->
       Forall (fun r => ¬ is_span_log r) added).
Proof.
  destruct (thread_step_text s c rest r1 res r2 text Hpc Hq Hacc Hres Htext Hne)
    as [_ Hlog].
  destruct (r_result res) as [[|w ws]|].
  - destruct Hlog as (Hlog & _ & _). eexists. split; [exact Hlog |].
    split.
    + intros words first final a b [= <-]. discriminate.
    + intros _. repeat constructor; simpl; tauto.
  - destruct Hlog as (more & Hlog & Hmore). eexists. split; [exact Hlog |].
    split.
    + intros words first final a b [= <-] [= <-] Hlast Ha Hb.
      rewrite Hlast. change (default w (Some final)) with final.
      unfold get_start, get_end. rewrite Ha, Hb.
      change (default (num_of_nat 0) (Some a)) with a.
      change (default (num_of_nat 0) (Some b)) with b.
      exists (LogConfidence
                (num_div (py_sum (get_conf <$> w :: ws))
                         (num_of_nat (length (w :: ws)))) :: more).
      split; [done |]. constructor; [simpl; tauto |].
      eapply Forall_impl; [exact Hmore |].
      intros r [Hr | [-> | ->]]; [destruct r; simpl in *; tauto | simpl; tauto ..].
    + intros [? | ?]; discriminate.
  - destruct Hlog as (Hlog & _ & _). eexists. split; [exact Hlog |].
    split.
    + intros words first final a b ?. discriminate.
    + intros _. repeat constructor; simpl; tauto.
Qed.

(** C2, on the code. A finalized utterance with text and an empty word
    list makes [sum(...) / len(...)] raise [ZeroDivisionError]; only
    [queue.Empty] is caught inside the loop, so the outer handler logs the
    error, calls [stop_recognition] and [start_recognition] returns: the
    text is never logged, the run flag is down and the thread is gone for
    good. The result had been appended before. *)
Theorem empty_word_list_ends_the_loop (s : st) c rest r1 res r2 text
  (Hpc : thread s = AtGet) (Hq : q s = c :: rest)
  (Hacc : AcceptWaveform (recognizer s) c = (true, r1))
  (Hres : Result r1 = (res, r2))
  (Htext : r_text res = Some text) (Hne : text ≠ "")
  (Hwords : r_result res = Some []) :
  logger (thread_step s) = logger s ++ [LogError ZeroDivisionError; LogStopping]
  ∧ running (thread_step s) = false
  ∧ (forall es, thread (run es (thread_step s)) = Returned)
  ∧ history (thread_step s) = history s ++ [set_text (process_text text) res].
Proof.
  destruct (thread_step_text s c rest r1 res r2 text Hpc Hq Hacc Hres Htext Hne)
    as [Hhist Hlog].
  rewrite Hwords in Hlog. destruct Hlog as (Hlog & Hret & Hrun).
  split; [done |]. split; [done |]. split; [| done].
  intros es. by apply run_returned.
Qed.

(** C9. The history is appended to and never reordered: from the empty
    store of [__init__], appending [R1] then [R2] makes the list read
    through [get_recognition_history] equal to [[R1; R2]], whether or not
    the two are equal; an append puts the result at the end; and over any
    schedule of thread steps, audio callbacks and stop requests, the
    history at the end is the history at the start followed by what was
    appended. *)
Theorem history_keeps_arrival_order :
  (forall (r0 : rec_state) (dev : bool) (R1 R2 : vosk_result num),
     read_list
       (heap (history_append R2 (history_append R1 (init r0 dev))))
       (get_recognition_history
          (history_append R2 (history_append R1 (init r0 dev))))
     = [R1; R2])
  ∧ (forall (s : st) (R : vosk_result num),
       history (history_append R s) = history s ++ [R])
  ∧ (forall (es : list event) (s : st),
       exists added, history (run es s) = history s ++ added).
Proof.
  split; [| split].
  - intros r0 dev R1 R2.
    change (history (history_append R2 (history_append R1 (init r0 dev)))
            = [R1; R2]).
    by rewrite !history_append_history.
  - intros s R. apply history_append_history.
  - apply run_history.
Qed.

(** C8, amended. [get_recognition_history] returns the location of the
    store's own list: what is read through a reference returned earlier
    follows every later append and clear. *)
Theorem snapshot_shares_the_store (s : st) (r : vosk_result num) :
  read_list (heap s) (get_recognition_history s) = history s
  ∧ read_list (heap (history_append r s)) (get_recognition_history s)
    = history s ++ [r]
  ∧ read_list (heap (clear_history s)) (get_recognition_history s) = []
  ∧ get_recognition_history (history_append r s) = get_recognition_history s
  ∧ get_recognition_history (clear_history s) = get_recognition_history s.
Proof.
  split; [done |]. split; [apply history_append_history |].
  split; [apply clear_history_history | done].
Qed.

(** C1, on the code. The thread is started, reaches [self.q.get()] on the
    empty queue, and [stop_recognition] is called before any block has
    arrived: however many more steps the thread is given, it is still
    inside [q.get()], with the run flag down, the queue and the history
    empty. The [get] has no timeout, so [while self.running] is not
    looked at again until a block arrives. *)
Theorem stop_on_empty_queue_never_returns (r0 : rec_state) (n : nat) :
  thread (run ([Consumer; Consumer; Stop] ++ repeat Consumer n) (init r0 true))
  = AtGet
  ∧ running (run ([Consumer; Consumer; Stop] ++ repeat Consumer n) (init r0 true))
    = false
  ∧ q (run ([Consumer; Consumer; Stop] ++ repeat Consumer n) (init r0 true)) = []
  ∧ history (run ([Consumer; Consumer; Stop] ++ repeat Consumer n) (init r0 true))
    = [].
Proof.
  rewrite run_app. rewrite run_blocked by reflexivity.
  repeat split; reflexivity.
Qed.

End LoopClaims.

(** ** Confidence aggregation *)

(** When every word carries its confidence, [word.get("conf", 0)] reads
    it. *)
Lemma get_conf_present {num} `{PyNum num} (words : list (word_info num)) :
  forall confs, w_conf <$> words = Some <$> confs -> get_conf <$> words = confs.
Proof.
  induction words as [|w ws IH]; intros [|x xs] Heq; try discriminate.
  - reflexivity.
  - simpl in Heq. injection Heq as Hw Hws.
    simpl. unfold get_conf at 1. rewrite Hw. simpl. f_equal. by apply IH.
Qed.


(** *** Without rounding

    What the loop would log if [+] and [/] were exact, which they are not
    on Python floats: the arithmetic mean. *)

Lemma fold_left_Qplus (xs : list Q) (a : Q) :
  (fold_left Qplus xs a == a + fold_right Qplus 0 xs)%Q.
Proof.
  revert a. induction xs as [|x xs IH]; intros a; simpl.
  - ring.
  - rewrite IH. ring.
Qed.

Lemma py_sum_div_mean (confs : list Q) :
  (num_div (py_sum confs) (num_of_nat (length confs)) == arithmetic_mean confs)%Q.
Proof.
  unfold arithmetic_mean, py_sum. simpl.
  rewrite fold_left_Qplus. by rewrite Qplus_0_l.
Qed.

Lemma exact_confidence_is_arithmetic_mean {rec_state : Type}
  `{Transducer Q rec_state} (s : state Q rec_state) c rest r1 res r2 text
  (words : list (word_info Q)) (confs : list Q) :
  thread s = AtGet -> q s = c :: rest ->
  AcceptWaveform (recognizer s) c = (true, r1) ->
  Result r1 = (res, r2) ->
  r_text res = Some text -> text ≠ "" ->
  r_result res = Some words -> words ≠ [] ->
  w_conf <$> words = Some <$> confs ->
  exists start_time end_time conf more,
    logger (thread_step s)
    = logger s
      ++ LogRecognizedSpan start_time end_time (process_text text)
      :: LogConfidence conf :: more
    ∧ Forall is_tail_log more
    ∧ (conf == arithmetic_mean confs)%Q.
Proof.
  intros Hpc Hq Hacc Hres Htext Hne Hwords Hsome Hconfs.
  destruct (thread_step_text s c rest r1 res r2 text Hpc Hq Hacc Hres Htext Hne)
    as [_ Hlog].
  rewrite Hwords in Hlog. destruct words as [|w ws]; [done |].
  destruct Hlog as (more & Hlog & Hmore).
  do 3 eexists. exists more. split; [exact Hlog |]. split; [exact Hmore |].
  rewrite (get_conf_present (w :: ws) confs Hconfs).
  replace (length (w :: ws)) with (length confs).
  - apply py_sum_div_mean.
  - rewrite <- (length_fmap Some confs), <- Hconfs. by rewrite length_fmap.
Qed.

(** ** The pipeline on concrete inputs *)

Lemma result_only_for_finalized_text_witness :
  (fst (process_audio_chunk silence (set_q [] (listening [Some two_words])))
   = Ok (Some (set_text (process_text "volume MINUS") two_words))
   ∧ history (thread_step (listening [Some two_words]))
     = history (listening [Some two_words])
       ++ [set_text (process_text "volume MINUS") two_words])
  ∧ (fst (process_audio_chunk silence
            (set_q [] (listening [Some (VoskResult (Some "") None)])))
     = Ok None
     ∧ history (thread_step (listening [Some (VoskResult (Some "") None)]))
       = history (listening [Some (VoskResult (Some "") None)]))
  ∧ (fst (process_audio_chunk silence (set_q [] (listening [None]))) = Ok None
     ∧ history (thread_step (listening [None])) = history (listening [None])).
Proof.
  split; [| split].
  - destruct (result_only_for_finalized_text (listening [Some two_words])
                silence [] true (Scripted (Some two_words) []) two_words
                (Scripted None [])) as (Hyes & _ & _);
      [reflexivity | reflexivity | reflexivity | reflexivity |].
    apply Hyes; [reflexivity | reflexivity | discriminate].
  - destruct (result_only_for_finalized_text
                (listening [Some (VoskResult (Some "") None)])
                silence [] true
                (Scripted (Some (VoskResult (Some "") None)) [])
                (VoskResult (Some "") None) (Scripted None []))
      as (_ & _ & Hno);
      [reflexivity | reflexivity | reflexivity | reflexivity |].
    apply Hno. right. right. reflexivity.
  - destruct (result_only_for_finalized_text (listening [None])
                silence [] false (Scripted None [])
                (VoskResult (Some "") None) (Scripted None []))
      as (_ & _ & Hno);
      [reflexivity | reflexivity | reflexivity | reflexivity |].
    apply Hno. left. reflexivity.
Defined.

Lemma utterance_span_first_to_last_witness :
  exists added,
    logger (thread_step (listening [Some two_words]))
    = logger (listening [Some two_words]) ++ added
    ∧ (forall words first final start_time end_time,
         r_result two_words = Some words ->
         head words = Some first -> last words = Some final ->
         w_start first = Some start_time -> w_end final = Some end_time ->
         exists more,
           added
           = LogRecognizedSpan start_time end_time (process_text "volume MINUS")
             :: more
           ∧ Forall (fun r => ¬ is_span_log r) more)
    ∧ (r_result two_words = Some [] ∨ r_result two_words = None ->
       Forall (fun r => ¬ is_span_log r) added).
Proof.
  apply (utterance_span_first_to_last (listening [Some two_words])
           silence [] (Scripted (Some two_words) []) two_words
           (Scripted None []) "volume MINUS");
    [reflexivity | reflexivity | reflexivity | reflexivity | reflexivity
    | discriminate].
Defined.



Lemma empty_word_list_ends_the_loop_witness :
  logger (thread_step (listening [Some empty_words]))
  = logger (listening [Some empty_words])
    ++ [LogError ZeroDivisionError; LogStopping]
  ∧ running (thread_step (listening [Some empty_words])) = false
  ∧ (forall es, thread (run es (thread_step (listening [Some empty_words])))
                = Returned)
  ∧ history (thread_step (listening [Some empty_words]))
    = history (listening [Some empty_words])
      ++ [set_text (process_text "hello") empty_words].
Proof.
  apply (empty_word_list_ends_the_loop (listening [Some empty_words])
           silence [] (Scripted (Some empty_words) []) empty_words
           (Scripted None []) "hello");
    [reflexivity | reflexivity | reflexivity | reflexivity | reflexivity
    | discriminate | reflexivity].
Defined.

(** The two words of the specification, 1.0 and 0.5 from 0.1 s to 2.6 s:
    the whole log of the turn, on rationals and on binary64 floats. *)
Example two_words_log :
  logger (thread_step (listening [Some two_words]))
  = [LogStarted;
     LogRecognizedSpan (1 # 10)%Q (13 # 5)%Q "volume -";
     LogConfidence (3 # 4)%Q;
     LogWord "MINUS" (1 # 2)%Q 2%Q (13 # 5)%Q].
Proof. vm_compute. reflexivity. Qed.

Example two_words_log_float :
  logger (run [Consumer; Consumer; Callback silence None; Consumer]
              (init (play [Some two_words_float]) true))
  = [LogStarted;
     LogRecognizedSpan 0x1.999999999999ap-4%float 0x1.4cccccccccccdp+1%float
       "volume -";
     LogConfidence 0.75%float;
     LogWord "MINUS" 0.5%float 2%float 0x1.4cccccccccccdp+1%float].
Proof. vm_compute. reflexivity. Qed.

(** Without word list the text alone is logged and the loop goes on; with
    an empty word list nothing of the utterance is logged. *)
Example no_words_log :
  logger (thread_step (listening [Some no_words]))
  = [LogStarted; LogRecognized "hello"]
  ∧ thread (thread_step (listening [Some no_words])) = AtWhile.
Proof. vm_compute. split; reflexivity. Qed.

Example empty_words_log :
  logger (thread_step (listening [Some empty_words]))
  = [LogStarted; LogError ZeroDivisionError; LogStopping]
  ∧ thread (thread_step (listening [Some empty_words])) = Returned.
Proof. vm_compute. split; reflexivity. Qed.

(** Two equal utterances in a row are both kept, in order. *)
Example same_utterance_twice :
  history (run [Consumer; Consumer; Callback silence None;
                Callback silence None; Consumer; Consumer; Consumer]
               (init (play [Some no_words; Some no_words]) true))
  = [no_words; no_words].
Proof. vm_compute. reflexivity. Qed.

(** C8, as the specification states it, fails: the list returned by
    [get_recognition_history] before a clear, or before an append, does not
    read the same afterwards. *)
Lemma snapshot_is_not_a_copy :
  read_list (heap (history_append no_words (init (@play Q []) true)))
    (get_recognition_history (history_append no_words (init (@play Q []) true)))
  = [no_words]
  ∧ read_list
      (heap (clear_history (history_append no_words (init (@play Q []) true))))
      (get_recognition_history (history_append no_words (init (@play Q []) true)))
    ≠ read_list (heap (history_append no_words (init (@play Q []) true)))
        (get_recognition_history
           (history_append no_words (init (@play Q []) true)))
  ∧ read_list
      (heap (history_append two_words
               (history_append no_words (init (@play Q []) true))))
      (get_recognition_history (history_append no_words (init (@play Q []) true)))
    ≠ read_list (heap (history_append no_words (init (@play Q []) true)))
        (get_recognition_history
           (history_append no_words (init (@play Q []) true))).
Proof. vm_compute. repeat split; discriminate. Qed.

(** A block that arrives after the stop request is still taken out of the
    queue and recognized before the run flag is looked at: the loop then
    returns, with the utterance in the history. *)
Example late_block_is_recognized_after_stop :
  thread (run [Consumer; Consumer; Stop; Callback silence None;
               Consumer; Consumer]
              (init (play [Some no_words]) true)) = Returned
  ∧ history (run [Consumer; Consumer; Stop; Callback silence None;
                  Consumer; Consumer]
                 (init (play [Some no_words]) true)) = [no_words].
Proof. vm_compute. split; reflexivity. Qed.

(** A stop request that comes before the thread has run
    [self.running = True] is overwritten: the loop keeps listening. *)
Example stop_before_thread_start_is_lost :
  running (run [Stop; Consumer; Consumer; Callback silence None; Consumer;
                Consumer]
               (init (@play Q [None]) true)) = true
  ∧ thread (run [Stop; Consumer; Consumer; Callback silence None; Consumer;
                 Consumer]
                (init (@play Q [None]) true)) = AtGet.
Proof. vm_compute. split; reflexivity. Qed.

(** * Further properties of the code *)

(** ** [process_text] *)

Section PostProcessorFacts.

Import PyStr.

Lemma split_from_nil (s : string) :
  forall cur, split_from cur s = [] <-> cur = "" ∧ allspace s = true.
Proof.
  induction s as [|c s IH]; intros cur; simpl.
  - destruct (decide (cur = "")); split; intros Hx; try done.
    + by destruct Hx.
  - destruct (isspace c) eqn:Hc; simpl.
    + destruct (decide (cur = "")) as [-> | Hcur].
      * rewrite IH. tauto.
      * split; [discriminate | intros [? _]; done].
    + rewrite IH. split; [| intros [_ ?]; discriminate].
      intros [Hcur _]. destruct cur; discriminate.
Qed.

Lemma join_nil (ts : list string) :
  Forall is_token ts -> join " " ts = "" -> ts = [].
Proof.
  intros Hts Hj. destruct Hts as [|w ws [Hne _] _]; [done |].
  destruct ws as [|w2 ws]; simpl in Hj.
  - done.
  - destruct w; [done | discriminate].
Qed.

(** A separator between two texts separates their tokens. *)
Lemma split_from_sep_app (a b : string) :
  forall cur, split_from cur (a +:+ " " +:+ b) = split_from cur a ++ split b.
Proof.
  induction a as [|c a IH]; intros cur.
  - rewrite append_nil_l, append_cons, append_nil_l. simpl.
    by destruct (decide (cur = "")).
  - rewrite append_cons. simpl. destruct (isspace c).
    + destruct (decide (cur = "")); by rewrite IH.
    + apply IH.
Qed.

Lemma is_mapped_normalize_token (w : string) :
  is_mapped (normalize_token w) = false.
Proof.
  unfold normalize_token. destruct (is_mapped w) eqn:Hw; [| done].
  by vm_compute.
Qed.

(** X1. [process_text] returns the empty string exactly on the texts that
    have no token: the empty text and the texts made of separators only. *)
Theorem process_text_empty_iff_blank (text : string) :
  process_text text = "" <-> allspace text = true.
Proof.
  rewrite process_text_join. split.
  - intros Hj. apply join_nil in Hj; [| apply normalize_tokens, split_tokens].
    apply fmap_nil_inv in Hj. by apply (split_from_nil text "") in Hj as [_ ?].
  - intros Hblank.
    assert (Hs : split text = []) by by apply (split_from_nil text "").
    by rewrite Hs.
Qed.

(** X2. The output of [process_text] is in normal form: none of its
    tokens is a mapped word any more, and it is its own tokens joined by
    one space (no leading, trailing or doubled separator). *)
Theorem process_text_output_normal (text : string) :
  Forall (fun w => is_mapped w = false) (split (process_text text))
  ∧ join " " (split (process_text text)) = process_text text.
Proof.
  rewrite split_process_text. split.
  - apply Forall_fmap, Forall_true. intros w. apply is_mapped_normalize_token.
  - by rewrite process_text_join.
Qed.

(** X3. [process_text] works token by token: the tokens of the
    normalization of two texts put together with a space are those of the
    first followed by those of the second, and normalizing the parts first
    changes nothing. *)
Theorem process_text_concat (a b : string) :
  split (process_text (a +:+ " " +:+ b))
  = split (process_text a) ++ split (process_text b)
  ∧ process_text (process_text a +:+ " " +:+ process_text b)
    = process_text (a +:+ " " +:+ b).
Proof.
  assert (Hsplit : forall x y, split (x +:+ " " +:+ y) = split x ++ split y).
  { intros x y. apply split_from_sep_app. }
  split.
  - by rewrite !split_process_text, Hsplit, fmap_app.
  - rewrite (process_text_join (_ +:+ _)), Hsplit, !split_process_text.
    rewrite (process_text_join (a +:+ _)), Hsplit, !fmap_app.
    rewrite <- !list_fmap_compose. f_equal. f_equal.
    + apply list_fmap_ext. intros _ w _. apply normalize_token_idemp.
    + apply list_fmap_ext. intros _ w _. apply normalize_token_idemp.
Qed.

End PostProcessorFacts.

(** ** The recognition thread, field by field *)

Section LoopFacts.

Context {num : Type} `{PyNum num}.
Context {rec_state : Type} `{Transducer num rec_state}.

Local Abbreviation st := (state num rec_state).

(** The loop body leaves the run flag, the queue, the thread's position,
    the device and the reference to the history alone, and moves the
    engine as [engine_after] says. *)
Lemma handle_chunk_frame (c : chunk) (s : st) :
  running (snd (handle_chunk c s)) = running s
  ∧ q (snd (handle_chunk c s)) = q s
  ∧ thread (snd (handle_chunk c s)) = thread s
  ∧ device_ok (snd (handle_chunk c s)) = device_ok s
  ∧ recognition_history (snd (handle_chunk c s)) = recognition_history s
  ∧ recognizer (snd (handle_chunk c s)) = engine_after (recognizer s) c.
Proof.
  unfold engine_after.
  destruct (AcceptWaveform (recognizer s) c) as [fin r1] eqn:Hacc.
  destruct (Result r1) as [res r2] eqn:Hres.
  destruct (fin && text_truthy (r_text res)) eqn:Hyes.
  - apply andb_true_iff in Hyes as [-> Htruthy].
    apply text_truthy_true in Htruthy as (text & Htext & Hne).
    rewrite (handle_chunk_text c s r1 res r2 text Hacc Hres Htext Hne).
    destruct (r_result res) as [[|w ws]|]; [done | | done].
    match goal with
    | |- context [for_each ?ws ?f ?s0] =>
        destruct (for_each_log_word ws s0) as (added & -> & _ & _)
    end.
    done.
  - rewrite (handle_chunk_skip c s fin r1 res r2 Hacc Hres Hyes).
    by destruct fin.
Qed.

(** A turn on a dequeued chunk either goes back to the [while] test or
    ends in the outer handler. *)
Lemma thread_step_get_cases (s : st) c rest :
  thread s = AtGet -> q s = c :: rest ->
  thread_step s = set_thread AtWhile (snd (handle_chunk c (set_q rest s)))
  ∨ exists e,
      thread_step s
      = set_thread Returned
          (stop_recognition
             (log (LogError e) (snd (handle_chunk c (set_q rest s))))).
Proof.
  intros Hpc Hq. rewrite (thread_step_get s c rest Hpc Hq).
  destruct (handle_chunk c (set_q rest s)) as [[u|e] s']; simpl.
  - by left.
  - destruct e; eauto.
Qed.

(** The thread never touches the reference to the history, nor the
    device. *)
Lemma thread_step_reference (s : st) :
  recognition_history (thread_step s) = recognition_history s.
Proof.
  destruct (thread s) eqn:Hpc.
  - unfold thread_step. rewrite Hpc. simpl. by destruct (device_ok s).
  - unfold thread_step. rewrite Hpc. by destruct (running s).
  - destruct (q s) as [|c rest] eqn:Hq.
    + by rewrite thread_step_blocked.
    + destruct (handle_chunk_frame c (set_q rest s)) as (_ & _ & _ & _ & Hl & _).
      destruct (thread_step_get_cases s c rest Hpc Hq) as [-> | [e ->]];
        simpl; by rewrite Hl.
  - unfold thread_step. by rewrite Hpc.
Qed.

Lemma step_reference (e : event) (s : st) :
  recognition_history (step e s) = recognition_history s.
Proof.
  destruct e as [| indata status |]; simpl.
  - apply thread_step_reference.
  - destruct (stream_open s); [| done].
    unfold callback. destruct status as [flags|]; [| done].
    by destruct (bool_decide (flags = "")).
  - done.
Qed.

Lemma run_reference (es : list event) (s : st) :
  recognition_history (run es s) = recognition_history s.
Proof.
  revert s. induction es as [|e es IH]; intros s; [done |].
  by rewrite run_cons, IH, step_reference.
Qed.

(** Once the thread has started, no step raises the run flag, and the
    thread never goes back to its start. *)
Lemma step_started (e : event) (s : st) :
  thread s ≠ NotStarted ->
  thread (step e s) ≠ NotStarted
  ∧ (running s = false -> running (step e s) = false).
Proof.
  intros Hstarted. destruct e as [| indata status |]; simpl.
  - destruct (thread s) eqn:Hpc; [done | | |].
    + unfold thread_step. rewrite Hpc.
      destruct (running s) eqn:Hrun; simpl; (split; [discriminate |]);
        intros Hdown; congruence.
    + destruct (q s) as [|c rest] eqn:Hq.
      * rewrite thread_step_blocked by done. rewrite Hpc.
        split; [discriminate | done].
      * destruct (handle_chunk_frame c (set_q rest s)) as (Hr & _).
        destruct (thread_step_get_cases s c rest Hpc Hq) as [-> | [e ->]];
          simpl; (split; [discriminate |]); [| done].
        intros Hdown. by rewrite Hr.
    + unfold thread_step. rewrite Hpc. rewrite Hpc.
      split; [discriminate | done].
  - destruct (stream_open s); [| split; done].
    unfold callback. destruct status as [flags|]; [| split; done].
    destruct (bool_decide (flags = "")); split; done.
  - split; done.
Qed.

Lemma thread_step_while_down (s : st) :
  thread s = AtWhile -> running s = false ->
  thread_step s = set_thread Returned s.
Proof. intros Hpc Hdown. unfold thread_step. by rewrite Hpc, Hdown. Qed.

Lemma thread_step_returned (s : st) : thread s = Returned -> thread_step s = s.
Proof. intros Hpc. unfold thread_step. by rewrite Hpc. Qed.

Lemma run_running_down (es : list event) (s : st) :
  thread s ≠ NotStarted -> running s = false -> running (run es s) = false.
Proof.
  revert s. induction es as [|e es IH]; intros s Hs Hd; [done |].
  rewrite run_cons. destruct (step_started e s Hs) as [Hs' Hd'].
  apply IH; [exact Hs' | by apply Hd'].
Qed.

Lemma run_after_return (es : list event) (s : st) :
  thread s = Returned -> history (run es s) = history s.
Proof.
  revert s. induction es as [|e es IH]; intros s Hret; [done |].
  rewrite run_cons. destruct e as [| indata status |]; simpl step.
  - rewrite thread_step_returned by done. by apply IH.
  - unfold stream_open. rewrite Hret. by apply IH.
  - by rewrite IH.
Qed.

End LoopFacts.

(** ** Queue, stop request and return *)

Section LoopProperties.

Context {num : Type} `{PyNum num}.
Context {rec_state : Type} `{Transducer num rec_state}.

Local Abbreviation st := (state num rec_state).

Lemma callback_open (indata : chunk) status (s : st) :
  stream_open s = true ->
  q (callback indata status s) = q s ++ [indata]
  ∧ thread (callback indata status s) = thread s
  ∧ running (callback indata status s) = running s
  ∧ recognizer (callback indata status s) = recognizer s.
Proof.
  intros Hopen. unfold callback.
  destruct status as [flags|]; [| done].
  by destruct (bool_decide (flags = "")).
Qed.

(** X4. While the stream is open, the callbacks put every block at the
    back of the queue, in the order of delivery, whatever the status
    flags: nothing is dropped, and the queue grows without bound when the
    thread does not take blocks out. Run flag, engine and history are not
    touched. *)
Theorem deliveries_enqueue_in_order (blocks : list (chunk * option string))
  (s : st) (Hopen : stream_open s = true) :
  q (run (deliveries blocks) s) = q s ++ (fst <$> blocks)
  ∧ running (run (deliveries blocks) s) = running s
  ∧ recognizer (run (deliveries blocks) s) = recognizer s
  ∧ history (run (deliveries blocks) s) = history s.
Proof.
  revert s Hopen. induction blocks as [|[c status] blocks IH]; intros s Hopen.
  - simpl. by rewrite app_nil_r.
  - change (deliveries ((c, status) :: blocks))
      with (Callback c status :: deliveries blocks).
    rewrite run_cons. simpl step. rewrite Hopen.
    destruct (callback_open c status s Hopen) as (Hq & Hpc & Hrun & Hrec).
    destruct (IH (callback c status s)) as (IHq & IHrun & IHrec & IHhist).
    { unfold stream_open. rewrite Hpc. exact Hopen. }
    rewrite IHq, IHrun, IHrec, IHhist, Hq, Hrun, Hrec, callback_history.
    by rewrite <- app_assoc.
Qed.

(** X5. A turn at [q.get()] takes exactly the front block out of the
    queue and feeds it to the engine; the blocks behind it keep their
    order. *)
Theorem turn_consumes_front_block (s : st) c rest
  (Hpc : thread s = AtGet) (Hq : q s = c :: rest) :
  q (thread_step s) = rest
  ∧ recognizer (thread_step s) = engine_after (recognizer s) c.
Proof.
  destruct (handle_chunk_frame c (set_q rest s)) as (_ & Hq' & _ & _ & _ & Hrec).
  destruct (thread_step_get_cases s c rest Hpc Hq) as [-> | [e ->]];
    simpl; by rewrite Hq', Hrec.
Qed.

(** X6. A stop request is honoured as soon as a block is there: with the
    thread at [q.get()] and a block queued, [stop_recognition] followed by
    two steps of the thread makes [start_recognition] return, after that
    one block, and only that one, has been taken out and recognized. *)
Theorem stop_returns_after_one_block (s : st) c rest
  (Hpc : thread s = AtGet) (Hq : q s = c :: rest) :
  thread (run [Stop; Consumer; Consumer] s) = Returned
  ∧ running (run [Stop; Consumer; Consumer] s) = false
  ∧ q (run [Stop; Consumer; Consumer] s) = rest
  ∧ recognizer (run [Stop; Consumer; Consumer] s)
    = engine_after (recognizer s) c.
Proof.
  change (run [Stop; Consumer; Consumer] s)
    with (thread_step (thread_step (stop_recognition s))).
  assert (Hpc' : thread (stop_recognition s) = AtGet) by done.
  assert (Hq0 : q (stop_recognition s) = c :: rest) by done.
  destruct (handle_chunk_frame c (set_q rest (stop_recognition s)))
    as (Hrun & Hq' & _ & _ & _ & Hrec).
  change (running (set_q rest (stop_recognition s))) with false in Hrun.
  change (q (set_q rest (stop_recognition s))) with rest in Hq'.
  change (recognizer (set_q rest (stop_recognition s)))
    with (recognizer s) in Hrec.
  destruct (thread_step_get_cases (stop_recognition s) c rest Hpc' Hq0)
    as [-> | [e ->]].
  - rewrite thread_step_while_down by done. done.
  - rewrite thread_step_returned by done. done.
Qed.

(** X7. A stop request sticks: once the thread has started and the run
    flag is down, no thread step, callback or further stop request raises
    it again. *)
Theorem stop_is_sticky (es : list event) (s : st)
  (Hstarted : thread s ≠ NotStarted) (Hdown : running s = false) :
  running (run es s) = false.
Proof.
  by apply run_running_down.
Qed.

(** X8. After [start_recognition] has returned, the history is final:
    whatever happens next, thread, run flag and history stay as they
    are, so reading the history after the join is safe. *)
Theorem history_final_after_return (es : list event) (s : st)
  (Hret : thread s = Returned) (Hdown : running s = false) :
  thread (run es s) = Returned
  ∧ running (run es s) = false
  ∧ history (run es s) = history s.
Proof.
  split; [by apply run_returned |].
  split; [apply run_running_down; [by rewrite Hret | done] |].
  by apply run_after_return.
Qed.

(** X9. The reference returned by [get_recognition_history] stays the
    store's list over any schedule: what is read through a reference
    taken before the run is the history after the run. *)
Theorem reference_follows_the_run (es : list event) (s : st) :
  get_recognition_history (run es s) = get_recognition_history s
  ∧ read_list (heap (run es s)) (get_recognition_history s) = history (run es s).
Proof.
  unfold get_recognition_history, history. by rewrite run_reference.
Qed.

(** X10. When the audio stream cannot be opened, [start_recognition] logs
    the error, lowers the run flag it had just raised and returns at once;
    from then on no block is queued or recognized. *)
Theorem device_failure_returns (es : list event) (s : st)
  (Hpc : thread s = NotStarted) (Hdev : device_ok s = false) :
  logger (thread_step s) = logger s ++ [LogError PortAudioError; LogStopping]
  ∧ thread (run es (thread_step s)) = Returned
  ∧ running (run es (thread_step s)) = false
  ∧ history (run es (thread_step s)) = history s.
Proof.
  assert (Hstep : thread_step s
                  = set_thread Returned
                      (stop_recognition
                         (log (LogError PortAudioError) (set_running true s)))).
  { unfold thread_step. rewrite Hpc. simpl. by rewrite Hdev. }
  rewrite Hstep. split; [simpl; by rewrite <- app_assoc |].
  split; [by apply run_returned |].
  split.
  - by apply run_running_down.
  - by rewrite run_after_return.
Qed.

End LoopProperties.

(** ** The per-word diagnostics *)

Section Diagnostics.

Context {num : Type} `{PyNum num}.
Context {rec_state : Type} `{Transducer num rec_state}.

Local Abbreviation st := (state num rec_state).

(** The body of the per-word loop, by what [word_diagnostic] says. *)
Lemma log_word_eq (w : word_info num) (s : st) :
  log_word w s =
    match word_diagnostic w with
    | Some r => (Ok tt, log r s)
    | None =>
        if num_ltb (get_conf w) num_0_8
        then (Raise (KeyError "word"), s) else (Ok tt, s)
    end.
Proof.
  unfold log_word, word_diagnostic.
  destruct (num_ltb (get_conf w) num_0_8); [| done].
  unfold bind, get_word. by destruct (w_word w).
Qed.


Lemma for_each_log_word_raise (words : list (word_info num)) (s : st) :
  Exists lacks_word_key words ->
  exists diag,
    for_each words log_word s = (Raise (KeyError "word"), add_logs diag s)
    ∧ Forall is_word_log diag.
Proof.
  intros Hbad. revert s.
  induction words as [|w ws IH]; intros s; [by apply Exists_nil in Hbad |].
  assert (Hdiag := log_word_eq w s).
  destruct (word_diagnostic w) as [r|] eqn:Hd.
  - assert (Hr : is_word_log r).
    { unfold word_diagnostic in Hd.
      destruct (num_ltb (get_conf w) num_0_8); [| done].
      destruct (w_word w); [| done]. by injection Hd as <-. }
    apply Exists_cons in Hbad as [[Hlow Hnone] | Hbad].
    { unfold word_diagnostic in Hd. rewrite Hlow, Hnone in Hd. done. }
    destruct (IH Hbad (log r s)) as (diag & Hrun & Hdg).
    exists (r :: diag). split; [| by constructor].
    rewrite (for_each_cons_ok _ _ _ _ _ Hdiag), Hrun.
    by rewrite log_add_logs, add_logs_app.
  - destruct (num_ltb (get_conf w) num_0_8) eqn:Hlow.
    + exists []. split; [| constructor].
      by rewrite (for_each_cons_raise _ _ _ _ _ _ Hdiag), add_logs_nil.
    + apply Exists_cons in Hbad as [[Hlow' _] | Hbad]; [congruence |].
      rewrite (for_each_cons_ok _ _ _ _ _ Hdiag). by apply IH.
Qed.


(** X12. A word of confidence below 0.8 without the key [word] raises
    [KeyError] while its diagnostic is formatted: the turn has logged the
    span, the confidence and the diagnostics of the words before it, then
    the outer handler logs the error and [start_recognition] returns with
    the run flag down. The utterance is in the history. *)
Theorem missing_word_key_ends_the_loop (s : st) c rest r1 res r2 text
  (words : list (word_info num))
  (Hpc : thread s = AtGet) (Hq : q s = c :: rest)
  (Hacc : AcceptWaveform (recognizer s) c = (true, r1))
  (Hres : Result r1 = (res, r2))
  (Htext : r_text res = Some text) (Hne : text ≠ "")
  (Hwords : r_result res = Some words)
  (Hbad : Exists lacks_word_key words) :
  exists start_time end_time conf diag,
    logger (thread_step s)
    = logger s
      ++ LogRecognizedSpan start_time end_time (process_text text)
      :: LogConfidence conf
      :: diag ++ [LogError (KeyError "word"); LogStopping]
    ∧ Forall is_word_log diag
    ∧ thread (thread_step s) = Returned
    ∧ running (thread_step s) = false
    ∧ history (thread_step s) = history s ++ [set_text (process_text text) res].
Proof.
  rewrite (thread_step_get s c rest Hpc Hq).
  rewrite (handle_chunk_text c (set_q rest s) r1 res r2 text Hacc Hres Htext Hne).
  rewrite Hwords. destruct words as [|w ws]; [by apply Exists_nil in Hbad |].
  match goal with
  | |- context [for_each ?ws ?f ?s0] =>
      destruct (for_each_log_word_raise ws s0 Hbad) as (diag & -> & Hdiag)
  end.
  do 3 eexists. exists diag.
  split; [simpl; by rewrite <- !app_assoc |].
  split; [exact Hdiag |]. split; [reflexivity |]. split; [reflexivity |].
  apply (history_append_history _ (set_recognizer r2 (set_q rest s))).
Qed.

End Diagnostics.

(** ** What is logged and what is stored *)

Section LoggedAndStored.

Context {num : Type} `{PyNum num}.
Context {rec_state : Type} `{Transducer num rec_state}.

Local Abbreviation st := (state num rec_state).

Lemma process_text_blank (text : string) :
  PyStr.allspace text = true -> process_text text = "".
Proof.
  intros Hblank. rewrite process_text_join.
  assert (Hs : PyStr.split text = []) by by apply (split_from_nil text "").
  by rewrite Hs.
Qed.

(** X13. The emptiness test of [process_audio_chunk] is on the engine's
    text, before normalization: a finalized text that is not empty but
    made of separators only passes it, and the result goes to the history
    with the empty text. *)
Theorem blank_text_is_stored_empty (s : st) c rest r1 res r2 text
  (Hpc : thread s = AtGet) (Hq : q s = c :: rest)
  (Hacc : AcceptWaveform (recognizer s) c = (true, r1))
  (Hres : Result r1 = (res, r2))
  (Htext : r_text res = Some text) (Hne : text ≠ "")
  (Hblank : PyStr.allspace text = true) :
  fst (process_audio_chunk c (set_q rest s)) = Ok (Some (set_text "" res))
  ∧ history (thread_step s) = history s ++ [set_text "" res].
Proof.
  rewrite <- (process_text_blank text Hblank). split.
  - rewrite (process_audio_chunk_eq c (set_q rest s) true r1 res r2 Hacc Hres).
    rewrite Htext. unfold text_truthy. by rewrite bool_decide_eq_false_2.
  - by apply (thread_step_text s c rest r1 res r2 text).
Qed.

(** X14. A chunk that closes no utterance, or one whose text is empty or
    absent, is discarded in silence: nothing is logged or stored, the run
    flag stays, and the thread is back at the [while] test. *)
Theorem partial_hypothesis_is_silent (s : st) c rest fin r1 res r2
  (Hpc : thread s = AtGet) (Hq : q s = c :: rest)
  (Hacc : AcceptWaveform (recognizer s) c = (fin, r1))
  (Hres : Result r1 = (res, r2))
  (Hno : fin && text_truthy (r_text res) = false) :
  logger (thread_step s) = logger s
  ∧ history (thread_step s) = history s
  ∧ running (thread_step s) = running s
  ∧ thread (thread_step s) = AtWhile.
Proof.
  by rewrite (thread_step_skip s c rest fin r1 res r2 Hpc Hq Hacc Hres Hno).
Qed.

Lemma logged_texts_tail (more : list (log_record num)) :
  Forall is_tail_log more -> logged_texts more = [].
Proof.
  unfold logged_texts. induction 1 as [|r more Hr _ IH]; [done |].
  cbn [omap list_omap]. rewrite IH.
  destruct Hr as [Hr | [-> | ->]]; [by destruct r | done | done].
Qed.

(** One event adds to the log and to the history; the texts it logs are
    among the texts it stores. *)
Lemma step_logged_stored (e : event) (s : st) :
  exists new_logs new_results,
    logger (step e s) = logger s ++ new_logs
    ∧ history (step e s) = history s ++ new_results
    ∧ logged_texts new_logs `sublist_of` stored_texts new_results.
Proof.
  destruct e as [| indata status |]; simpl step.
  - destruct (thread s) eqn:Hpc.
    + unfold thread_step. rewrite Hpc. simpl. destruct (device_ok s).
      * exists [LogStarted], []. simpl. by rewrite app_nil_r.
      * exists [LogError PortAudioError; LogStopping], []. simpl.
        rewrite <- app_assoc. by rewrite app_nil_r.
    + exists [], []. unfold thread_step. rewrite Hpc.
      destruct (running s); simpl; by rewrite !app_nil_r.
    + destruct (q s) as [|c rest] eqn:Hq.
      * exists [], []. rewrite thread_step_blocked by done.
        by rewrite !app_nil_r.
      * destruct (AcceptWaveform (recognizer s) c) as [fin r1] eqn:Hacc.
        destruct (Result r1) as [res r2] eqn:Hres.
        destruct (fin && text_truthy (r_text res)) eqn:Hyes.
        -- apply andb_true_iff in Hyes as [-> Htruthy].
           apply text_truthy_true in Htruthy as (text & Htext & Hne).
           destruct (thread_step_text s c rest r1 res r2 text
                       Hpc Hq Hacc Hres Htext Hne) as [Hhist Hlog].
           destruct (r_result res) as [[|w ws]|].
           ++ destruct Hlog as (Hlog & _). eexists. eexists.
              split; [exact Hlog |]. split; [exact Hhist |].
              apply sublist_nil_l.
           ++ destruct Hlog as (more & Hlog & Hmore). eexists. eexists.
              split; [exact Hlog |]. split; [exact Hhist |].
              unfold logged_texts. cbn [omap list_omap logged_text].
              fold (logged_texts more). by rewrite (logged_texts_tail more Hmore).
           ++ destruct Hlog as (Hlog & _). eexists. eexists.
              split; [exact Hlog |]. split; [exact Hhist |]. done.
        -- exists [], [].
           rewrite (thread_step_skip s c rest fin r1 res r2 Hpc Hq Hacc Hres Hyes).
           simpl. by rewrite !app_nil_r.
    + exists [], []. rewrite thread_step_returned by done.
      by rewrite !app_nil_r.
  - destruct (stream_open s).
    + rewrite callback_history. unfold callback.
      destruct status as [flags|].
      * destruct (bool_decide (flags = "")).
        -- exists [], []. simpl. by rewrite !app_nil_r.
        -- exists [LogCallbackStatus flags], []. simpl. by rewrite app_nil_r.
      * exists [], []. simpl. by rewrite !app_nil_r.
    + exists [], []. by rewrite !app_nil_r.
  - exists [LogStopping], []. simpl. by rewrite app_nil_r.
Qed.

Lemma run_logged_stored (es : list event) (s : st) :
  logged_texts (logger s) `sublist_of` stored_texts (history s) ->
  logged_texts (logger (run es s)) `sublist_of` stored_texts (history (run es s)).
Proof.
  revert s. induction es as [|e es IH]; intros s Hs; [done |].
  rewrite run_cons. apply IH.
  destruct (step_logged_stored e s) as (nl & nr & -> & -> & Hsub).
  unfold logged_texts, stored_texts in *. rewrite !omap_app.
  by apply sublist_app.
Qed.

(** X15. Every utterance the log shows is in the history: over any
    schedule from the state [__init__] leaves, the texts of the utterance
    lines of the log are, in order, among the texts of the history (a
    result with an empty word list is stored without having been
    logged). *)
Theorem logged_utterances_are_stored (es : list event) (r0 : rec_state)
  (dev : bool) :
  logged_texts (logger (run es (init r0 dev)))
    `sublist_of` stored_texts (history (run es (init r0 dev))).
Proof. apply run_logged_stored. apply sublist_nil_l. Qed.

End LoggedAndStored.

(** ** The further properties on concrete inputs *)

Lemma deliveries_enqueue_in_order_witness :
  q (run (deliveries [(silence, None); ([Byte.x01; Byte.x00], Some "input overflow")])
         (run [Consumer; Consumer] (init (@play Q []) true)))
  = q (run [Consumer; Consumer] (init (@play Q []) true))
    ++ (fst <$> [(silence, None); ([Byte.x01; Byte.x00], Some "input overflow")])
  ∧ running (run (deliveries [(silence, None);
                              ([Byte.x01; Byte.x00], Some "input overflow")])
                 (run [Consumer; Consumer] (init (@play Q []) true)))
    = running (run [Consumer; Consumer] (init (@play Q []) true))
  ∧ recognizer (run (deliveries [(silence, None);
                                 ([Byte.x01; Byte.x00], Some "input overflow")])
                    (run [Consumer; Consumer] (init (@play Q []) true)))
    = recognizer (run [Consumer; Consumer] (init (@play Q []) true))
  ∧ history (run (deliveries [(silence, None);
                              ([Byte.x01; Byte.x00], Some "input overflow")])
                 (run [Consumer; Consumer] (init (@play Q []) true)))
    = history (run [Consumer; Consumer] (init (@play Q []) true)).
Proof.
  apply (deliveries_enqueue_in_order
           [(silence, None); ([Byte.x01; Byte.x00], Some "input overflow")]
           (run [Consumer; Consumer] (init (@play Q []) true))).
  reflexivity.
Defined.

Lemma turn_consumes_front_block_witness :
  q (thread_step (listening [None])) = []
  ∧ recognizer (thread_step (listening [None]))
    = engine_after (recognizer (listening [None])) silence.
Proof.
  apply (turn_consumes_front_block (listening [None]) silence []);
    reflexivity.
Defined.

Lemma stop_returns_after_one_block_witness :
  thread (run [Stop; Consumer; Consumer] (listening [Some no_words])) = Returned
  ∧ running (run [Stop; Consumer; Consumer] (listening [Some no_words])) = false
  ∧ q (run [Stop; Consumer; Consumer] (listening [Some no_words])) = []
  ∧ recognizer (run [Stop; Consumer; Consumer] (listening [Some no_words]))
    = engine_after (recognizer (listening [Some no_words])) silence.
Proof.
  apply (stop_returns_after_one_block (listening [Some no_words]) silence []);
    reflexivity.
Defined.

Lemma stop_is_sticky_witness :
  running (run [Callback silence None; Consumer; Consumer; Stop; Consumer]
               (run [Consumer; Consumer; Stop] (init (@play Q [None]) true)))
  = false.
Proof.
  apply (stop_is_sticky
           [Callback silence None; Consumer; Consumer; Stop; Consumer]
           (run [Consumer; Consumer; Stop] (init (@play Q [None]) true)));
    [discriminate | reflexivity].
Defined.

Lemma history_final_after_return_witness :
  thread (run [Callback silence None; Consumer; Stop]
              (thread_step (listening [Some empty_words]))) = Returned
  ∧ running (run [Callback silence None; Consumer; Stop]
                 (thread_step (listening [Some empty_words]))) = false
  ∧ history (run [Callback silence None; Consumer; Stop]
                 (thread_step (listening [Some empty_words])))
    = history (thread_step (listening [Some empty_words])).
Proof.
  apply (history_final_after_return [Callback silence None; Consumer; Stop]
           (thread_step (listening [Some empty_words])));
    reflexivity.
Defined.

Lemma device_failure_returns_witness :
  logger (thread_step (init (@play Q [Some no_words]) false))
  = logger (init (@play Q [Some no_words]) false)
    ++ [LogError PortAudioError; LogStopping]
  ∧ thread (run [Callback silence None; Consumer]
                (thread_step (init (@play Q [Some no_words]) false))) = Returned
  ∧ running (run [Callback silence None; Consumer]
                 (thread_step (init (@play Q [Some no_words]) false))) = false
  ∧ history (run [Callback silence None; Consumer]
                 (thread_step (init (@play Q [Some no_words]) false)))
    = history (init (@play Q [Some no_words]) false).
Proof.
  apply (device_failure_returns [Callback silence None; Consumer]
           (init (@play Q [Some no_words]) false));
    reflexivity.
Defined.


Lemma missing_word_key_ends_the_loop_witness :
  exists start_time end_time conf diag,
    logger (thread_step (listening [Some nameless_word]))
    = logger (listening [Some nameless_word])
      ++ LogRecognizedSpan start_time end_time (process_text "go on")
      :: LogConfidence conf
      :: diag ++ [LogError (KeyError "word"); LogStopping]
    ∧ Forall is_word_log diag
    ∧ thread (thread_step (listening [Some nameless_word])) = Returned
    ∧ running (thread_step (listening [Some nameless_word])) = false
    ∧ history (thread_step (listening [Some nameless_word]))
      = history (listening [Some nameless_word])
        ++ [set_text (process_text "go on") nameless_word].
Proof.
  apply (missing_word_key_ends_the_loop (listening [Some nameless_word])
           silence [] (Scripted (Some nameless_word) []) nameless_word
           (Scripted None []) "go on"
           [WordInfo (Some "go") (Some 1%Q) (Some 0%Q) (Some (1 # 2)%Q);
            WordInfo None (Some (1 # 2)%Q) (Some (1 # 2)%Q) (Some 1%Q)]);
    [reflexivity | reflexivity | reflexivity | reflexivity | reflexivity
    | discriminate | reflexivity |].
  apply Exists_cons_tl, Exists_cons_hd. split; reflexivity.
Defined.

Lemma blank_text_is_stored_empty_witness :
  fst (process_audio_chunk silence (set_q [] (listening [Some blank_text])))
  = Ok (Some (set_text "" blank_text))
  ∧ history (thread_step (listening [Some blank_text]))
    = history (listening [Some blank_text]) ++ [set_text "" blank_text].
Proof.
  apply (blank_text_is_stored_empty (listening [Some blank_text])
           silence [] (Scripted (Some blank_text) []) blank_text
           (Scripted None []) "  ");
    [reflexivity | reflexivity | reflexivity | reflexivity | reflexivity
    | discriminate | reflexivity].
Defined.

Lemma partial_hypothesis_is_silent_witness :
  logger (thread_step (listening [None])) = logger (listening [None])
  ∧ history (thread_step (listening [None])) = history (listening [None])
  ∧ running (thread_step (listening [None])) = running (listening [None])
  ∧ thread (thread_step (listening [None])) = AtWhile.
Proof.
  apply (partial_hypothesis_is_silent (listening [None]) silence [] false
           (Scripted None []) (VoskResult (Some "") None) (Scripted None []));
    reflexivity.
Defined.

